(** * Dress_Control: the analog sampler and the TEG heating/cooling driver

    Two Arduino sketches are embedded here.

    - [AnalogSampler] is the sketch that polls [millis()], reads pin A0 every
      50 ms, smooths the reading exponentially and prints
      [timestamp,voltage].
    - [TEG_HeatingCooling] is [TEG_Heating&Cooling.ino]: the [TEG] class with
      [forward], [backward] and [stop], and the serial command loop.

    The target is the AVR Arduino (10-bit ADC on A0, 5 V reference): [int] is
    16 bits, [unsigned long] is 32 bits, and both [float] and [double] are
    IEEE-754 binary32, rounded to nearest even.  Floating point is the
    executable specification of the Standard Library ([SpecFloat]) at
    precision 24 and [emax = 128]; [unsigned long] is [Z] with the wrap-around
    written out.

    The Arduino core is outside the sketches.  Its calls appear as events
    ([Serial.print], [digitalWrite], ...) and as a state that remembers what
    was last written to each pin; the text that [Serial.println] makes of a
    [float] is not modelled.  The [setup()] of the sampler only opens the
    serial port and is left out; the one of the TEG sketch, which also waits
    for a first byte, is [TEG_HeatingCooling.setup]. *)

From stdpp Require Import gmap.
From Stdlib Require Import ZArith QArith Qpower Qabs List String Ascii.
From Stdlib Require Import Lia Lqa Bool Sorted.
From Stdlib Require Import Floats.SpecFloat.
Import ListNotations.

Local Open Scope Z_scope.

(** ** IEEE-754 binary32, the [float] of the sketches *)

Module Float32.

Definition prec : Z := 24.
Definition emax : Z := 128.

Abbreviation float := spec_float.

Definition mul : float -> float -> float := SFmul prec emax.
Definition add : float -> float -> float := SFadd prec emax.
Definition sub : float -> float -> float := SFsub prec emax.
Definition div : float -> float -> float := SFdiv prec emax.

(** [a < b], [a <= b] and [a > b] of C; all are false as soon as one side
    is NaN. *)
Definition lt (a b : float) : bool := SFltb a b.
Definition le (a b : float) : bool := SFleb a b.
Definition gt (a b : float) : bool := SFltb b a.

(** [(float) n] for an integer [n]: rounded to nearest even. *)
Definition of_int (n : Z) : float := binary_normalize prec emax n 0 false.

(** A decimal literal [num/den], e.g. [0.9] is [of_decimal 9 10]: both
    integers are exact and the division rounds correctly, so the result is
    the binary32 number nearest to the literal. *)
Definition of_decimal (num den : Z) : float := div (of_int num) (of_int den).

Definition is_finite (x : float) : bool :=
  match x with
  | S754_zero _ | S754_finite _ _ _ => true
  | _ => false
  end.

(** The rational number a finite float stands for ([0] for the others). *)
Definition to_Q (x : float) : Q :=
  match x with
  | S754_finite s m e =>
      let v := match e with
               | Zneg p => (Zpos m # Pos.pow 2 p)%Q
               | _ => inject_Z (Zpos m * 2 ^ e)
               end in
      if s then Qopp v else v
  | _ => 0%Q
  end.

(** *** Vocabulary for the rounding of [SpecFloat]

    [rnd m n] is the integer nearest to [m / 2^n], ties to even: what
    [shr] and [round_nearest_even] compute together. *)
Definition rnd (m n : Z) : Z :=
  let q := m / 2 ^ n in
  let r := m mod 2 ^ n in
  match 2 * r ?= 2 ^ n with
  | Lt => q
  | Eq => if Z.even q then q else q + 1
  | Gt => q + 1
  end.

(** The second normalisation and the packing of [binary_round_aux]. *)
Definition finish (q e : Z) : float :=
  let '(mrs, e') := shr_fexp prec emax q e loc_Exact in
  match shr_m mrs with
  | Z0 => S754_zero false
  | Zpos m => if e' <=? emax - prec then S754_finite false m e'
              else S754_infinity false
  | Zneg _ => S754_nan
  end.

(** Rounding of the positive number [m * 2^e] to binary32. *)
Definition Rnd (m e : Z) : float :=
  binary_round_aux prec emax false m e loc_Exact.

(** The number of low bits of [m] that do not fit. *)
Definition shift (m e : Z) : Z := fexp prec emax (Zdigits2 m + e) - e.

(** A mantissa and an exponent in canonical position. *)
Definition canon (m : positive) (e : Z) : Prop :=
  Zdigits2 (Zpos m) <= 24 /\ -149 <= e
  /\ (-149 < e -> Zdigits2 (Zpos m) = 24).

(** The non-negative values: zeros, positive numbers in canonical
    position, and plus infinity. *)
Definition good (z : float) : Prop :=
  match z with
  | S754_zero _ => True
  | S754_infinity s => s = false
  | S754_finite s m e => s = false /\ canon m e
  | S754_nan => False
  end.

(** The value of the dyadic number [m * 2^e]. *)
Definition dyadic (m e : Z) : Q := (inject_Z m * 2 ^ e)%Q.

(** The unit roundoff of binary32 and half its smallest positive number. *)
Definition u32 : Q := 1 # 16777216.
Definition eta32 : Q := 1 # 1427247692705959881058285969449495136382746624.

(** [P] holds on the [n] integers from [lo] upwards. *)
Fixpoint all_from (P : Z -> bool) (lo : Z) (n : nat) : bool :=
  match n with
  | O => true
  | S k => P lo && all_from P (lo + 1) k
  end.

(** [x] is the number [q >= 0] rounded to binary32: a zero when [q] is 0,
    and otherwise the rounding of a way to write [q] as [m * 2^e], below
    the overflow threshold. *)
Definition rounds_to (q : Q) (x : float) : Prop :=
  ((q == 0)%Q /\ exists s, x = S754_zero s)
  \/ (exists m e, 0 < m /\ 0 <= shift m e /\ Zdigits2 m + e <= 127
                  /\ x = Rnd m e /\ (dyadic m e == q)%Q).

(** Equality of two floats, bit for bit. *)
Definition same (x y : float) : bool :=
  match x, y with
  | S754_zero s, S754_zero s' => Bool.eqb s s'
  | S754_infinity s, S754_infinity s' => Bool.eqb s s'
  | S754_nan, S754_nan => true
  | S754_finite s m e, S754_finite s' m' e' =>
      Bool.eqb s s' && Pos.eqb m m' && Z.eqb e e'
  | _, _ => false
  end.

End Float32.

(** ** The sampler sketch *)

Module AnalogSampler.
Import Float32.

(** [unsigned long] arithmetic: subtraction wraps modulo [2^32]. *)
Definition ULONG_WIDTH : Z := 32.
Definition ulong_sub (a b : Z) : Z := (a - b) mod 2 ^ ULONG_WIDTH.

(** The globals that the sketch assigns.  [analogPin], [interval] and
    [alpha] are never assigned after their initialisation and appear as
    constants. *)
Record globals := Globals {
  analogValue : float;
  previousMillis : Z;
  last_val : float
}.

Definition analogPin : Z := 14.          (* A0 *)
Definition interval : Z := 50.
Definition alpha : float := of_decimal 9 10.   (* float alpha = 0.9; *)

Definition initial : globals :=
  {| analogValue := of_int 0; previousMillis := 0; last_val := of_int (-1) |}.

(** What the board answers during one pass through [loop]: the value of
    [millis()], an [unsigned long] and so below [2^32], and the value
    [analogRead] would return for each pin, 0..1023 from the 10-bit ADC. *)
Record tick := Tick {
  millis : Z;
  analogRead : Z -> Z
}.

(** Calls on [Serial], in the order they are made. *)
Inductive serial_out :=
| Serial_print_ulong (n : Z)
| Serial_print_str (s : string)
| Serial_println_float (v : float).

(** Lines 43-51: read the pin, smooth, remember.  This is the update
    operation of the smoothing filter; its result is [analogValue]. *)
Definition update (raw : Z) (g : globals) : globals :=
  let analogValue0 := of_int raw in
  let analogValue1 :=
    if gt (last_val g) (of_int 0)
    then add (mul alpha (last_val g)) (mul (sub (of_int 1) alpha) analogValue0)
    else analogValue0 in
  {| analogValue := analogValue1;
     previousMillis := previousMillis g;
     last_val := analogValue1 |}.

(** Line 54: [analogValue * 5.00 / 1024.0]. *)
Definition convert (x : float) : float :=
  div (mul x (of_int 5)) (of_int 1024).

(** The guard of line 38. *)
Definition elapsed (currentMillis : Z) (g : globals) : bool :=
  interval <=? ulong_sub currentMillis (previousMillis g).

(** Lines 57-59: the three calls that print one line. *)
Definition line (currentMillis : Z) (voltage : float) : list serial_out :=
  [Serial_print_ulong currentMillis;
   Serial_print_str ",";
   Serial_println_float voltage].

(** One pass through [loop()]: the new globals and what was printed. *)
Definition loop (t : tick) (g : globals) : globals * list serial_out :=
  let currentMillis := millis t in
  if elapsed currentMillis g then
    let g1 := {| analogValue := analogValue g;
                 previousMillis := currentMillis;
                 last_val := last_val g |} in
    let g2 := update (analogRead t analogPin) g1 in
    let voltage := convert (analogValue g2) in
    (g2, line currentMillis voltage)
  else (g, []).

(** The sketch run over successive passes: what each pass printed, and the
    globals at the end. *)
Fixpoint run (ts : list tick) (g : globals) : list (list serial_out) :=
  match ts with
  | [] => []
  | t :: ts' => snd (loop t g) :: run ts' (fst (loop t g))
  end.

Fixpoint final (ts : list tick) (g : globals) : globals :=
  match ts with
  | [] => g
  | t :: ts' => final ts' (fst (loop t g))
  end.

(** The clock values of the passes that performed a sampling cycle, that is
    the passes that printed a line, in order. *)
Fixpoint fired_at (ts : list tick) (g : globals) : list Z :=
  match ts with
  | [] => []
  | t :: ts' =>
      match snd (loop t g) with
      | [] => fired_at ts' (fst (loop t g))
      | _ :: _ => millis t :: fired_at ts' (fst (loop t g))
      end
  end.

(** The end-to-end scenario of the specification: the clock values and the
    raw sample present at A0 in each of five passes. *)
Definition scenario : list tick :=
  [ Tick 0 (fun _ => 500); Tick 20 (fun _ => 500); Tick 55 (fun _ => 600);
    Tick 60 (fun _ => 600); Tick 110 (fun _ => 700) ].

(** A stored value is settled when it is a finite binary32 number between 0
    and 1024; [last_val] is in range when it is the sentinel or settled. *)
Definition settled (h : float) : Prop :=
  valid_binary prec emax h = true /\ is_finite h = true
  /\ le (of_int 0) h = true /\ (to_Q h <= 1024)%Q.

Definition in_range (g : globals) : Prop :=
  last_val g = of_int (-1) \/ settled (last_val g).

(** Whether each pass performed a sampling cycle. *)
Fixpoint fired (ts : list tick) (g : globals) : list bool :=
  match ts with
  | [] => []
  | t :: ts' => elapsed (millis t) g :: fired ts' (fst (loop t g))
  end.

(** The elements of [l] at the positions where [mask] is true. *)
Fixpoint select {A} (mask : list bool) (l : list A) : list A :=
  match mask, l with
  | b :: mask', a :: l' => if b then a :: select mask' l' else select mask' l'
  | _, _ => []
  end.

(** Two fire times are far enough apart when their wrap-around difference
    reaches [interval]. *)
Definition spaced (a b : Z) : Prop := interval <= ulong_sub b a.

(** The filter fed a list of raw samples: the value each call returned, and
    the globals after the last call. *)
Fixpoint feed (raws : list Z) (g : globals) : list float * globals :=
  match raws with
  | [] => ([], g)
  | r :: raws' =>
      let g' := update r g in
      let '(outs, g'') := feed raws' g' in
      (analogValue g' :: outs, g'')
  end.

(** A stored value lies between the ADC codes [lo] and [hi]. *)
Definition within (lo hi : Z) (h : float) : Prop :=
  valid_binary prec emax h = true /\ is_finite h = true
  /\ (inject_Z lo <= to_Q h <= inject_Z hi)%Q.

(** The voltages handed to [Serial.println] in a sequence of calls. *)
Fixpoint voltages (out : list serial_out) : list float :=
  match out with
  | [] => []
  | Serial_println_float v :: out' => v :: voltages out'
  | _ :: out' => voltages out'
  end.

End AnalogSampler.

(** ** The TEG driver sketch, [TEG_Heating&Cooling.ino] *)

Module TEG_HeatingCooling.

Inductive level := LOW | HIGH.

(** What a pin is driven with: the last thing written to it. *)
Inductive pin_out :=
| Digital (v : level)
| Pwm (duty : Z).

(** Calls into the Arduino core, in the order they are made. *)
Inductive call :=
| digitalWrite_call (pin : Z) (v : level)
| analogWrite_call (pin : Z) (pwm : Z)
| Serial_println_call (s : string)
| delay_call (ms : Z).

(** The board as the sketch sees it: the output pins, the bytes waiting in
    the serial receive buffer (oldest first) and the calls made so far (latest
    last). *)
Record board := Board {
  pins : gmap Z pin_out;
  serial_rx : list ascii;
  calls : list call
}.

(** Sketch code runs in a state monad over the board. *)
Definition M (A : Type) : Type := board -> A * board.

#[export] Instance M_ret : MRet M := fun A (a : A) b => (a, b).
#[export] Instance M_bind : MBind M :=
  fun A B (f : A -> M B) (m : M A) b => let '(a, b') := m b in f a b'.

Definition exec {A} (m : M A) (b : board) : board := snd (m b).

Definition digitalWrite (pin : Z) (v : level) : M unit := fun b =>
  (tt, {| pins := <[pin := Digital v]> (pins b);
          serial_rx := serial_rx b;
          calls := calls b ++ [digitalWrite_call pin v] |}).

Definition analogWrite (pin : Z) (pwm : Z) : M unit := fun b =>
  (tt, {| pins := <[pin := Pwm pwm]> (pins b);
          serial_rx := serial_rx b;
          calls := calls b ++ [analogWrite_call pin pwm] |}).

Definition Serial_available : M Z := fun b =>
  (Z.of_nat (List.length (serial_rx b)), b).

(** [Serial.read()]: the oldest byte as an [int], or [-1] when there is
    none. *)
Definition Serial_read : M Z := fun b =>
  match serial_rx b with
  | [] => (-1, b)
  | c :: rest =>
      (Z.of_N (N_of_ascii c),
       {| pins := pins b; serial_rx := rest; calls := calls b |})
  end.

Definition Serial_println (s : string) : M unit := fun b =>
  (tt, {| pins := pins b;
          serial_rx := serial_rx b;
          calls := calls b ++ [Serial_println_call s] |}).

Definition delay (ms : Z) : M unit := fun b =>
  (tt, {| pins := pins b;
          serial_rx := serial_rx b;
          calls := calls b ++ [delay_call ms] |}).

(** The conversion of an [int] to [char] (8 bits, signed on AVR) and the
    value of a character literal. *)
Definition to_char (n : Z) : Z := (n + 128) mod 256 - 128.
Definition chr (c : ascii) : Z := Z.of_N (N_of_ascii c).

(** *** class TEG *)

Record TEG := Build_TEG {
  enable_pin : Z;
  pin1 : Z;
  pin2 : Z
}.

(** The constructor [TEG(enablePin, inputPin1, inputPin2)]. *)
Definition TEG_new (enablePin inputPin1 inputPin2 : Z) : TEG :=
  {| enable_pin := enablePin; pin1 := inputPin1; pin2 := inputPin2 |}.

Definition forward (t : TEG) (pwm : Z) : M unit :=
  digitalWrite (pin1 t) HIGH;;
  digitalWrite (pin2 t) LOW;;
  analogWrite (enable_pin t) pwm.

Definition backward (t : TEG) (pwm : Z) : M unit :=
  digitalWrite (pin1 t) LOW;;
  digitalWrite (pin2 t) HIGH;;
  analogWrite (enable_pin t) pwm.

Definition stop (t : TEG) : M unit :=
  digitalWrite (pin1 t) LOW;;
  digitalWrite (pin2 t) LOW;;
  analogWrite (enable_pin t) 0.

(** *** The two modules and the command loop *)

Definition ena : Z := 2.
Definition in1 : Z := 3.
Definition in2 : Z := 4.
Definition in3 : Z := 5.
Definition in4 : Z := 6.
Definition enb : Z := 7.

Definition TEG_L : TEG := TEG_new ena in1 in2.
Definition TEG_R : TEG := TEG_new enb in3 in4.

Definition loop : M unit :=
  n ← Serial_available;
  (if 0 <? n then
     c ← Serial_read;
     let command := to_char c in
     if command =? chr "a" then
       forward TEG_L 255;; Serial_println "a"
     else if command =? chr "s" then
       stop TEG_L;; stop TEG_R;; Serial_println "s"
     else if command =? chr "d" then
       backward TEG_L 255;; Serial_println "d"
     else if command =? chr "w" then
       forward TEG_R 135;; Serial_println "w"
     else if command =? chr "x" then
       backward TEG_R 135;; Serial_println "x"
     else mret tt
   else mret tt);;
  delay 100.

(** *** Vocabulary of the properties *)

(** An actuator is wired when its three pins are three different pins. *)
Definition wired (t : TEG) : Prop :=
  pin1 t <> pin2 t /\ enable_pin t <> pin1 t /\ enable_pin t <> pin2 t.

Definition driven (b : board) (pin : Z) (o : pin_out) : Prop :=
  pins b !! pin = Some o.

Definition forward_active (t : TEG) (b : board) : Prop :=
  driven b (pin1 t) (Digital HIGH) /\ driven b (pin2 t) (Digital LOW).

Definition backward_active (t : TEG) (b : board) : Prop :=
  driven b (pin1 t) (Digital LOW) /\ driven b (pin2 t) (Digital HIGH).

Definition stopped (t : TEG) (b : board) : Prop :=
  driven b (pin1 t) (Digital LOW) /\ driven b (pin2 t) (Digital LOW).

Definition both_active (t : TEG) (b : board) : Prop :=
  driven b (pin1 t) (Digital HIGH) /\ driven b (pin2 t) (Digital HIGH).

(** The calls made by [m] on top of those already in the log of [b]. *)
Definition new_calls {A} (m : M A) (b : board) : list call :=
  drop (List.length (calls b)) (calls (exec m b)).

(** *** Vocabulary for sequences of operations and of passes *)

(** The three operations of the class as data. *)
Inductive operation :=
| Forward (pwm : Z)
| Backward (pwm : Z)
| Stop.

Definition perform (t : TEG) (o : operation) : M unit :=
  match o with
  | Forward pwm => forward t pwm
  | Backward pwm => backward t pwm
  | Stop => stop t
  end.

(** The state an operation leaves an actuator in. *)
Definition left_by (t : TEG) (o : operation) (b : board) : Prop :=
  match o with
  | Forward pwm => forward_active t b /\ driven b (enable_pin t) (Pwm pwm)
  | Backward pwm => backward_active t b /\ driven b (enable_pin t) (Pwm pwm)
  | Stop => stopped t b /\ driven b (enable_pin t) (Pwm 0)
  end.

(** The three pins of an actuator hold on [b'] what they hold on [b]. *)
Definition untouched (t : TEG) (b b' : board) : Prop :=
  pins b' !! pin1 t = pins b !! pin1 t
  /\ pins b' !! pin2 t = pins b !! pin2 t
  /\ pins b' !! enable_pin t = pins b !! enable_pin t.

(** [n] passes through [loop()], one after the other, on the bytes that are
    waiting; none arrives in between. *)
Fixpoint passes (n : nat) : M unit :=
  match n with
  | O => mret tt
  | S k => loop;; passes k
  end.

(** The lines printed and the milliseconds waited in a log of calls. *)
Fixpoint printed (cs : list call) : list string :=
  match cs with
  | [] => []
  | Serial_println_call s :: cs' => s :: printed cs'
  | _ :: cs' => printed cs'
  end.

Fixpoint waited (cs : list call) : Z :=
  match cs with
  | [] => 0
  | delay_call ms :: cs' => ms + waited cs'
  | _ :: cs' => waited cs'
  end.

(** The bytes that the chain of comparisons of [loop()] recognises, and what
    each asks of the left and of the right actuator. *)
Definition is_command (c : ascii) : bool :=
  existsb (Ascii.eqb c) ["a"; "s"; "d"; "w"; "x"]%char.

Definition left_command (c : ascii) : option operation :=
  if Ascii.eqb c "a" then Some (Forward 255)
  else if Ascii.eqb c "s" then Some Stop
  else if Ascii.eqb c "d" then Some (Backward 255)
  else None.

Definition right_command (c : ascii) : option operation :=
  if Ascii.eqb c "s" then Some Stop
  else if Ascii.eqb c "w" then Some (Forward 135)
  else if Ascii.eqb c "x" then Some (Backward 135)
  else None.

(** The last thing a sequence of bytes asks of an actuator. *)
Fixpoint last_command (f : ascii -> option operation) (rx : list ascii)
  : option operation :=
  match rx with
  | [] => None
  | c :: rest =>
      match last_command f rest with
      | Some o => Some o
      | None => f c
      end
  end.

(** The calls that appear in the body of [loop()]: writes of a level to the
    pins 3 to 6, of a duty cycle 255 or 0 to pin 2 and 135 or 0 to pin 7, the
    echo of a command and the closing [delay(100)]. *)
Definition loop_call (c : call) : bool :=
  match c with
  | digitalWrite_call pin _ => (3 <=? pin) && (pin <=? 6)
  | analogWrite_call pin pwm =>
      ((pin =? 2) && ((pwm =? 255) || (pwm =? 0)))
      || ((pin =? 7) && ((pwm =? 135) || (pwm =? 0)))
  | Serial_println_call s =>
      existsb (String.eqb s) ["a"; "s"; "d"; "w"; "x"]%string
  | delay_call ms => ms =? 100
  end.

(** *** [setup()] *)

Inductive pin_mode := INPUT | OUTPUT.

(** What [setup()] configures: the direction of each pin and the speed of
    the serial port. *)
Record config := Config {
  modes : gmap Z pin_mode;
  baud : option Z
}.

Definition pinMode (pin : Z) (m : pin_mode) (c : config) : config :=
  {| modes := <[pin := m]> (modes c); baud := baud c |}.

Definition Serial_begin (speed : Z) (c : config) : config :=
  {| modes := modes c; baud := Some speed |}.

(** The board and the configuration at reset: nothing written, nothing
    received, nothing configured. *)
Definition power_up : board := Board ∅ [] [].
Definition unconfigured : config := Config ∅ None.

(** Bytes that the line delivers are queued behind those already waiting.
    The capacity of the receive buffer is not modelled. *)
Definition receive (bytes : list ascii) (b : board) : board :=
  {| pins := pins b; serial_rx := serial_rx b ++ bytes; calls := calls b |}.

(** [while (!Serial.available()) { }].  The line delivers the bytes of
    [arrivals], one element between two tests of the condition.  The result
    is the board at the test that finds a byte, with the arrivals still to
    come; it is [None] when the loop is still turning after the last of
    them. *)
Fixpoint wait_for_byte (arrivals : list (list ascii)) (b : board)
  : option (board * list (list ascii)) :=
  if fst (Serial_available b) =? 0 then
    match arrivals with
    | [] => None
    | bytes :: later => wait_for_byte later (receive bytes b)
    end
  else Some (b, arrivals).

(** [setup()] of the TEG sketch, run from reset: the six pins become
    outputs, the port is opened at 9600 baud, the sketch waits for a byte and
    then prints its banner. *)
Definition setup (arrivals : list (list ascii))
  : option (config * board * list (list ascii)) :=
  let c := pinMode ena OUTPUT unconfigured in
  let c := pinMode in1 OUTPUT c in
  let c := pinMode in2 OUTPUT c in
  let c := pinMode in3 OUTPUT c in
  let c := pinMode in4 OUTPUT c in
  let c := pinMode enb OUTPUT c in
  let c := Serial_begin 9600 c in
  match wait_for_byte arrivals power_up with
  | None => None
  | Some (b, later) =>
      Some (c, exec (Serial_println "Begin command....") b, later)
  end.

End TEG_HeatingCooling.

(** * Rounding in binary32

    [binary_round_aux] is characterised through [rnd] and [finish]; from
    there multiplication by a normal constant and division by 1024 are
    monotone on the non-negative floats. *)

Module Float32Facts.
Import Float32.

(** *** The number of bits of a mantissa *)

Lemma digits2_size (p : positive) : digits2_pos p = Pos.size p.
Proof. induction p; cbn; congruence. Qed.

Lemma digits_bounds (p : positive) :
  2 ^ (Zpos (digits2_pos p) - 1) <= Zpos p < 2 ^ Zpos (digits2_pos p).
Proof.
  rewrite digits2_size.
  pose proof (Pos.size_gt p) as Hgt. pose proof (Pos.size_le p) as Hle.
  apply Pos2Z.pos_lt_pos in Hgt. apply Pos2Z.pos_le_pos in Hle.
  rewrite Pos2Z.inj_pow in Hgt, Hle.
  assert (E : 2 ^ Zpos (Pos.size p) = 2 * 2 ^ (Zpos (Pos.size p) - 1)).
  { rewrite <- Z.pow_succ_r by lia. f_equal. lia. }
  split; lia.
Qed.

Lemma digits_unique (p : positive) (d : Z) :
  2 ^ (d - 1) <= Zpos p < 2 ^ d -> Zpos (digits2_pos p) = d.
Proof.
  intros [Hlo Hhi]. pose proof (digits_bounds p) as [Blo Bhi].
  set (k := Zpos (digits2_pos p)) in *.
  assert (0 < d).
  { destruct (Z_lt_le_dec 0 d); [assumption|].
    assert (2 ^ d <= 2 ^ 0) by (apply Z.pow_le_mono_r; lia). simpl in *. lia. }
  destruct (Z_lt_le_dec k d) as [Hkd|Hkd].
  - assert (2 ^ k <= 2 ^ (d - 1)) by (apply Z.pow_le_mono_r; lia). lia.
  - destruct (Z_lt_le_dec d k) as [Hdk|Hdk]; [|lia].
    assert (2 ^ d <= 2 ^ (k - 1)) by (apply Z.pow_le_mono_r; lia). lia.
Qed.

(** *** Shifting right

    [shr_1] halves the mantissa, keeps the bit shifted out as the round bit
    and folds the former round bit into the sticky bit. *)
Lemma shr_1_spec (m : Z) (r s : bool) :
  0 <= m ->
  shr_1 (Build_shr_record m r s) = Build_shr_record (Z.div2 m) (Z.odd m) (r || s).
Proof.
  intros Hm. destruct m as [|[p|p|]|p]; try reflexivity. lia.
Qed.

Lemma iter_pos_nat {A} (f : A -> A) (p : positive) :
  forall x, iter_pos f p x = Nat.iter (Pos.to_nat p) f x.
Proof.
  induction p as [p IH|p IH|]; intros x; cbn [iter_pos].
  - rewrite !IH, Pos2Nat.inj_xI.
    replace (S (2 * Pos.to_nat p)) with (Pos.to_nat p + (Pos.to_nat p + 1))%nat by lia.
    rewrite !Nat.iter_add. cbn. reflexivity.
  - rewrite !IH, Pos2Nat.inj_xO.
    replace (2 * Pos.to_nat p)%nat with (Pos.to_nat p + Pos.to_nat p)%nat by lia.
    now rewrite Nat.iter_add.
  - reflexivity.
Qed.

Lemma shr_iter_spec (m : Z) (r s : bool) (k : nat) :
  0 <= m ->
  Nat.iter (S k) shr_1 (Build_shr_record m r s)
  = Build_shr_record (m / 2 ^ Z.of_nat (S k))
                     (Z.testbit m (Z.of_nat k))
                     (r || s || negb (m mod 2 ^ Z.of_nat k =? 0)).
Proof.
  intros Hm. induction k as [|k IH].
  - cbn [Nat.iter]. rewrite shr_1_spec by assumption.
    change (Z.of_nat 1) with 1. change (Z.of_nat 0) with 0.
    rewrite Z.pow_1_r, Z.pow_0_r, Z.mod_1_r, Z.div2_div, Z.bit0_odd.
    cbn. now rewrite orb_false_r.
  - change (Nat.iter (S (S k)) shr_1 ?x) with (shr_1 (Nat.iter (S k) shr_1 x)).
    rewrite IH. rewrite shr_1_spec by (apply Z.div_pos; [lia|apply Z.pow_pos_nonneg; lia]).
    f_equal.
    + rewrite Z.div2_div, Z.div_div by (try apply Z.pow_pos_nonneg; lia).
      f_equal. rewrite (Nat2Z.inj_succ (S k)), Z.pow_succ_r by lia. lia.
    + rewrite <- Z.bit0_odd, <- Z.shiftr_div_pow2 by lia.
      rewrite Z.shiftr_spec by lia. f_equal; lia.
    + assert (Hu : negb (m mod 2 ^ Z.of_nat (S k) =? 0)
                   = Z.testbit m (Z.of_nat k) || negb (m mod 2 ^ Z.of_nat k =? 0)).
      { rewrite (Nat2Z.inj_succ k), Z.pow_succ_r by lia.
        set (a := Z.of_nat k). assert (0 <= a) by lia.
        rewrite Z.testbit_eqb by lia.
        assert (Hp : 0 < 2 ^ a) by (apply Z.pow_pos_nonneg; lia).
        pose proof (Z.div_mod m (2 ^ a) ltac:(lia)) as E1.
        pose proof (Z.mod_pos_bound m (2 ^ a) Hp) as B1.
        pose proof (Z.div_mod (m / 2 ^ a) 2 ltac:(lia)) as E2.
        pose proof (Z.mod_pos_bound (m / 2 ^ a) 2 ltac:(lia)) as B2.
        assert (E3 : m mod (2 * 2 ^ a)
                     = 2 ^ a * ((m / 2 ^ a) mod 2) + m mod 2 ^ a).
        { symmetry. apply Z.mod_unique with (q := (m / 2 ^ a) / 2);
            [left; nia | nia]. }
        rewrite E3.
        destruct (Z.eqb_spec ((m / 2 ^ a) mod 2) 1) as [Eb|Eb];
          destruct (Z.eqb_spec (m mod 2 ^ a) 0) as [E0|E0]; cbn;
          try (apply negb_true_iff, Z.eqb_neq; nia);
          try (apply negb_false_iff, Z.eqb_eq; nia). }
      rewrite Hu.
      destruct r, s, (Z.testbit m (Z.of_nat k)),
        (negb (m mod 2 ^ Z.of_nat k =? 0)); reflexivity.
Qed.

(** *** [shr] followed by [round_nearest_even] is [rnd] *)

Lemma mod_split (m a : Z) :
  0 <= a ->
  m mod 2 ^ (a + 1)
  = 2 ^ a * (if Z.testbit m a then 1 else 0) + m mod 2 ^ a.
Proof.
  intros Ha. rewrite Z.pow_add_r, Z.pow_1_r by lia.
  rewrite Z.testbit_eqb by lia.
  assert (Hp : 0 < 2 ^ a) by (apply Z.pow_pos_nonneg; lia).
  pose proof (Z.div_mod m (2 ^ a) ltac:(lia)) as E1.
  pose proof (Z.mod_pos_bound m (2 ^ a) Hp) as B1.
  pose proof (Z.div_mod (m / 2 ^ a) 2 ltac:(lia)) as E2.
  pose proof (Z.mod_pos_bound (m / 2 ^ a) 2 ltac:(lia)) as B2.
  symmetry. apply Z.mod_unique with (q := (m / 2 ^ a) / 2).
  - left. destruct (Z.eqb_spec ((m / 2 ^ a) mod 2) 1); nia.
  - destruct (Z.eqb_spec ((m / 2 ^ a) mod 2) 1); nia.
Qed.

Lemma shr_round (m : Z) (p : positive) :
  0 <= m ->
  let mrs := iter_pos shr_1 p (Build_shr_record m false false) in
  round_nearest_even (shr_m mrs) (loc_of_shr_record mrs) = rnd m (Zpos p).
Proof.
  intros Hm. cbv zeta. rewrite iter_pos_nat.
  destruct (Pos2Nat.is_succ p) as [k Hk]. rewrite Hk.
  rewrite shr_iter_spec by assumption.
  assert (Ep : Zpos p = Z.of_nat k + 1) by lia.
  unfold rnd. rewrite Ep.
  replace (Z.of_nat (S k)) with (Z.of_nat k + 1) by lia.
  set (a := Z.of_nat k). assert (Ha : 0 <= a) by lia.
  rewrite (mod_split m a Ha).
  assert (Hp : 0 < 2 ^ a) by (apply Z.pow_pos_nonneg; lia).
  pose proof (Z.mod_pos_bound m (2 ^ a) Hp) as B1.
  rewrite (Z.pow_add_r 2 a 1), Z.pow_1_r by lia.
  cbn [orb shr_m loc_of_shr_record].
  destruct (Z.testbit m a); destruct (Z.eqb_spec (m mod 2 ^ a) 0) as [E0|E0];
    cbn [negb loc_of_shr_record round_nearest_even].
  - rewrite E0. replace (2 * (2 ^ a * 1 + 0) ?= 2 ^ a * 2) with Eq; [reflexivity|].
    symmetry. apply Z.compare_eq_iff. lia.
  - replace (2 * (2 ^ a * 1 + m mod 2 ^ a) ?= 2 ^ a * 2) with Gt; [reflexivity|].
    symmetry. apply Z.compare_gt_iff. lia.
  - rewrite E0. replace (2 * (2 ^ a * 0 + 0) ?= 2 ^ a * 2) with Lt; [reflexivity|].
    symmetry. apply Z.compare_lt_iff. lia.
  - replace (2 * (2 ^ a * 0 + m mod 2 ^ a) ?= 2 ^ a * 2) with Lt; [reflexivity|].
    symmetry. apply Z.compare_lt_iff. lia.
Qed.

Lemma rnd_0 (m : Z) : rnd m 0 = m.
Proof.
  unfold rnd. rewrite Z.pow_0_r, Z.mod_1_r, Z.div_1_r. reflexivity.
Qed.

(** [binary_round_aux] on an exact positive number: shift out the bits that
    do not fit, round, and let [finish] pack the result. *)
Lemma binary_round_aux_spec (m : positive) (e : Z) :
  let n := fexp prec emax (Zpos (digits2_pos m) + e) - e in
  0 <= n ->
  binary_round_aux prec emax false (Zpos m) e loc_Exact
  = finish (rnd (Zpos m) n) (e + n).
Proof.
  intros n Hn. unfold binary_round_aux.
  unfold shr_fexp at 1. cbn [Zdigits2 shr_record_of_loc]. fold n.
  unfold shr at 1. destruct n as [|p|p] eqn:En; [| |lia].
  - cbn [shr_m loc_of_shr_record round_nearest_even].
    rewrite rnd_0, Z.add_0_r. reflexivity.
  - rewrite (shr_round (Zpos m) p) by lia. reflexivity.
Qed.

(** *** Properties of [rnd] *)

Lemma pow2_pos (n : Z) : 0 <= n -> 0 < 2 ^ n.
Proof. intros. apply Z.pow_pos_nonneg; lia. Qed.

Lemma rnd_exact (q n : Z) : 0 <= n -> rnd (q * 2 ^ n) n = q.
Proof.
  intros Hn. pose proof (pow2_pos n Hn). unfold rnd.
  rewrite Z.mod_mul, Z.div_mul by lia.
  destruct (Z.compare_spec (2 * 0) (2 ^ n)); [lia | reflexivity | lia].
Qed.

Lemma rnd_scale (m n k : Z) :
  0 <= n -> 0 <= k -> rnd (m * 2 ^ k) (n + k) = rnd m n.
Proof.
  intros Hn Hk. pose proof (pow2_pos n Hn). pose proof (pow2_pos k Hk).
  unfold rnd. rewrite Z.pow_add_r by lia.
  rewrite Z.div_mul_cancel_r, Z.mul_mod_distr_r by lia.
  set (r := m mod 2 ^ n).
  destruct (Z.compare_spec (2 * r) (2 ^ n)),
           (Z.compare_spec (2 * (r * 2 ^ k)) (2 ^ n * 2 ^ k));
    try reflexivity; nia.
Qed.

Lemma rnd_mono (m1 m2 n : Z) :
  0 <= n -> m1 <= m2 -> rnd m1 n <= rnd m2 n.
Proof.
  intros Hn Hm. pose proof (pow2_pos n Hn) as Hp. unfold rnd.
  pose proof (Z.div_mod m1 (2 ^ n) ltac:(lia)) as E1.
  pose proof (Z.mod_pos_bound m1 (2 ^ n) Hp) as B1.
  pose proof (Z.div_mod m2 (2 ^ n) ltac:(lia)) as E2.
  pose proof (Z.mod_pos_bound m2 (2 ^ n) Hp) as B2.
  set (q1 := m1 / 2 ^ n) in *. set (q2 := m2 / 2 ^ n) in *.
  set (r1 := m1 mod 2 ^ n) in *. set (r2 := m2 mod 2 ^ n) in *.
  set (P := 2 ^ n) in *.
  assert (Hq : q1 <= q2) by nia.
  assert (Hpar : q1 = q2 -> Z.even q1 = Z.even q2) by (intros ->; reflexivity).
  destruct (Z.compare_spec (2 * r1) P), (Z.compare_spec (2 * r2) P);
    destruct (Z.even q1) eqn:V1, (Z.even q2) eqn:V2;
    try nia;
    try (assert (q1 <> q2) by (intros Heq; apply Hpar in Heq; congruence); nia).
Qed.

(** *** Exponents and bit counts in binary32 *)

Lemma fexp_eq (x : Z) : fexp prec emax x = Z.max (x - 24) (-149).
Proof. reflexivity. Qed.

Lemma Zdigits2_bounds (m : Z) :
  0 < m -> 2 ^ (Zdigits2 m - 1) <= m < 2 ^ Zdigits2 m.
Proof.
  intros Hm. destruct m as [|p|p]; try lia. apply digits_bounds.
Qed.

Lemma Zdigits2_unique (m d : Z) :
  0 < m -> 2 ^ (d - 1) <= m < 2 ^ d -> Zdigits2 m = d.
Proof.
  intros Hm H. destruct m as [|p|p]; try lia. now apply digits_unique.
Qed.

Lemma Zdigits2_le (m d : Z) : 0 < m -> m < 2 ^ d -> Zdigits2 m <= d.
Proof.
  intros Hm H. pose proof (Zdigits2_bounds m Hm) as [Hlo _].
  destruct (Z_le_gt_dec (Zdigits2 m) d) as [|Hgt]; [assumption|].
  assert (2 ^ d <= 2 ^ (Zdigits2 m - 1)) by (apply Z.pow_le_mono_r; lia). lia.
Qed.

Lemma Zdigits2_ge (m d : Z) : 0 < m -> 2 ^ (d - 1) <= m -> d <= Zdigits2 m.
Proof.
  intros Hm H. pose proof (Zdigits2_bounds m Hm) as [_ Hhi].
  destruct (Z_le_gt_dec d (Zdigits2 m)) as [|Hgt]; [assumption|].
  assert (2 ^ Zdigits2 m <= 2 ^ (d - 1)) by (apply Z.pow_le_mono_r; lia). lia.
Qed.

Lemma Zdigits2_scale (m k : Z) :
  0 < m -> 0 <= k -> Zdigits2 (m * 2 ^ k) = Zdigits2 m + k.
Proof.
  intros Hm Hk. pose proof (pow2_pos k Hk).
  pose proof (Zdigits2_bounds m Hm) as [Hlo Hhi].
  assert (0 < Zdigits2 m) by (destruct m; cbn; lia).
  apply Zdigits2_unique; [nia|].
  replace (Zdigits2 m + k - 1) with (Zdigits2 m - 1 + k) by lia.
  rewrite !Z.pow_add_r by lia. nia.
Qed.

(** *** What [finish] returns *)

Lemma finish_zero (e : Z) : finish 0 e = S754_zero false.
Proof.
  unfold finish, shr_fexp, shr. cbn [Zdigits2 shr_record_of_loc].
  destruct (fexp prec emax (0 + e) - e) as [|p|p]; try reflexivity.
  rewrite iter_pos_nat. destruct (Pos2Nat.is_succ p) as [k ->].
  rewrite shr_iter_spec by lia. cbn [shr_m]. now rewrite Z.div_0_l by (pose proof (pow2_pos (Z.of_nat (S k))); lia).
Qed.

Lemma finish_small (q : positive) (e : Z) :
  Zpos q < 2 ^ 24 -> -149 <= e ->
  finish (Zpos q) e
  = if e <=? 104 then S754_finite false q e else S754_infinity false.
Proof.
  intros Hq He. unfold finish, shr_fexp, shr. cbn [shr_record_of_loc].
  pose proof (Zdigits2_le (Zpos q) 24 ltac:(lia) Hq) as Hd.
  rewrite fexp_eq.
  destruct (Z.max (Zdigits2 (Zpos q) + e - 24) (-149) - e) as [|p|p] eqn:E;
    try reflexivity.
  lia.
Qed.

Lemma finish_top (e : Z) :
  -149 <= e ->
  finish (2 ^ 24) e
  = if e + 1 <=? 104 then S754_finite false (2 ^ 23) (e + 1)
    else S754_infinity false.
Proof.
  intros He. unfold finish, shr_fexp, shr. cbn [shr_record_of_loc].
  rewrite fexp_eq. change (Zdigits2 (2 ^ 24)) with 25.
  replace (Z.max (25 + e - 24) (-149) - e) with 1 by lia.
  reflexivity.
Qed.

(** *** Rounding is monotone *)

Lemma Rnd_spec (m e : Z) :
  0 < m -> 0 <= shift m e ->
  Rnd m e = finish (rnd m (shift m e)) (e + shift m e).
Proof.
  intros Hm Hs. destruct m as [|p|p]; try lia.
  apply binary_round_aux_spec. exact Hs.
Qed.

Lemma shift_eq (m e : Z) :
  shift m e = Z.max (Zdigits2 m - 24) (-149 - e).
Proof. unfold shift. rewrite fexp_eq. lia. Qed.

Lemma rnd_range (m e : Z) :
  0 < m -> 0 <= shift m e -> 0 <= rnd m (shift m e) <= 2 ^ 24.
Proof.
  intros Hm Hs. pose proof (Zdigits2_bounds m Hm) as [_ Hhi].
  set (n := shift m e) in *. pose proof (shift_eq m e) as En. fold n in En.
  split.
  - rewrite <- (rnd_exact 0 n Hs). apply rnd_mono; lia.
  - rewrite <- (rnd_exact (2 ^ 24) n Hs). apply rnd_mono; [lia|].
    rewrite <- Z.pow_add_r by lia.
    assert (2 ^ Zdigits2 m <= 2 ^ (24 + n)) by (apply Z.pow_le_mono_r; lia).
    lia.
Qed.

Lemma rnd_normal (m e : Z) :
  0 < m -> 0 <= shift m e -> shift m e = Zdigits2 m - 24 ->
  2 ^ 23 <= rnd m (shift m e).
Proof.
  intros Hm Hs En. pose proof (Zdigits2_bounds m Hm) as [Hlo _].
  set (n := shift m e) in *.
  rewrite <- (rnd_exact (2 ^ 23) n Hs). apply rnd_mono; [lia|].
  rewrite <- Z.pow_add_r by lia.
  replace (23 + n) with (Zdigits2 m - 1) by lia. exact Hlo.
Qed.

Lemma SFleb_lex (m1 m2 : positive) (e1 e2 : Z) :
  e1 < e2 \/ (e1 = e2 /\ Zpos m1 <= Zpos m2) ->
  SFleb (S754_finite false m1 e1) (S754_finite false m2 e2) = true.
Proof.
  intros H. unfold SFleb, SFcompare.
  change (Pos.compare_cont Eq m1 m2) with (Pos.compare m1 m2).
  destruct (Z.compare_spec e1 e2); try reflexivity; try lia.
  destruct (Pos.compare_spec m1 m2); try reflexivity; lia.
Qed.

Lemma SFleb_lex_inv (m1 m2 : positive) (e1 e2 : Z) :
  SFleb (S754_finite false m1 e1) (S754_finite false m2 e2) = true ->
  e1 < e2 \/ (e1 = e2 /\ Zpos m1 <= Zpos m2).
Proof.
  unfold SFleb, SFcompare.
  change (Pos.compare_cont Eq m1 m2) with (Pos.compare m1 m2).
  destruct (Z.compare_spec e1 e2); try discriminate; try lia.
  destruct (Pos.compare_spec m1 m2); try discriminate; intros _; right; lia.
Qed.

Lemma finish_cases (q e : Z) :
  -149 <= e -> 0 <= q <= 2 ^ 24 ->
  (q = 0 /\ finish q e = S754_zero false)
  \/ (exists p, q = Zpos p /\ q < 2 ^ 24
                /\ finish q e = if e <=? 104 then S754_finite false p e
                                else S754_infinity false)
  \/ (q = 2 ^ 24
      /\ finish q e = if e + 1 <=? 104
                      then S754_finite false (2 ^ 23) (e + 1)
                      else S754_infinity false).
Proof.
  intros He Hq.
  destruct (Z.eq_dec q 0) as [->|H0]; [left; split; [reflexivity|apply finish_zero]|].
  destruct (Z.eq_dec q (2 ^ 24)) as [->|Ht].
  - right; right. split; [reflexivity|now apply finish_top].
  - right; left. destruct q as [|p|p]; try lia.
    exists p. repeat split; [lia|]. apply finish_small; lia.
Qed.

Lemma finish_le_q (e q1 q2 : Z) :
  -149 <= e -> 0 <= q1 -> q1 <= q2 -> q2 <= 2 ^ 24 ->
  SFleb (finish q1 e) (finish q2 e) = true.
Proof.
  intros He H1 H12 H2.
  destruct (finish_cases q1 e He ltac:(lia)) as [[E1 ->]|[(p1 & E1 & L1 & ->)|[E1 ->]]];
  destruct (finish_cases q2 e He ltac:(lia)) as [[E2 ->]|[(p2 & E2 & L2 & ->)|[E2 ->]]];
    try lia;
    repeat match goal with |- context [?a <=? ?b] => destruct (Z.leb_spec a b) end;
    try reflexivity; try lia;
    apply SFleb_lex; lia.
Qed.

Lemma finish_le_e (e1 e2 q1 q2 : Z) :
  -149 <= e1 -> e1 < e2 -> 0 <= q1 <= 2 ^ 24 -> 2 ^ 23 <= q2 <= 2 ^ 24 ->
  SFleb (finish q1 e1) (finish q2 e2) = true.
Proof.
  intros He1 He H1 H2.
  destruct (finish_cases q1 e1 He1 ltac:(lia)) as [[E1 ->]|[(p1 & E1 & L1 & ->)|[E1 ->]]];
  destruct (finish_cases q2 e2 ltac:(lia) ltac:(lia)) as [[E2 ->]|[(p2 & E2 & L2 & ->)|[E2 ->]]];
    try lia;
    repeat match goal with |- context [?a <=? ?b] => destruct (Z.leb_spec a b) end;
    try reflexivity; try lia;
    apply SFleb_lex; change (Zpos (2 ^ 23)) with (2 ^ 23); lia.
Qed.

(** Rounding is monotone.  Both numbers are given on the same exponent. *)
Lemma Rnd_mono (m1 m2 e : Z) :
  0 < m1 -> m1 <= m2 -> 0 <= shift m1 e ->
  SFleb (Rnd m1 e) (Rnd m2 e) = true.
Proof.
  intros H1 H12 Hs1.
  assert (Hd : Zdigits2 m1 <= Zdigits2 m2).
  { apply Zdigits2_le; [lia|].
    pose proof (Zdigits2_bounds m2 ltac:(lia)). lia. }
  pose proof (shift_eq m1 e) as E1. pose proof (shift_eq m2 e) as E2.
  assert (Hs2 : 0 <= shift m2 e) by lia.
  rewrite !Rnd_spec by lia.
  pose proof (rnd_range m1 e H1 Hs1) as R1.
  pose proof (rnd_range m2 e ltac:(lia) Hs2) as R2.
  destruct (Z.eq_dec (shift m1 e) (shift m2 e)) as [Es|Es].
  - rewrite <- Es. apply finish_le_q; try lia.
    + rewrite <- Es in R2. rewrite Es. rewrite <- Es. now apply rnd_mono.
    + rewrite Es. lia.
  - apply finish_le_e; try lia.
    split; [|lia]. apply rnd_normal; lia.
Qed.

(** Rounding depends on the number only, not on how it is written. *)
Lemma Rnd_scale (m e k : Z) :
  0 < m -> 0 <= k -> 0 <= shift m e ->
  Rnd (m * 2 ^ k) (e - k) = Rnd m e.
Proof.
  intros Hm Hk Hs. pose proof (pow2_pos k Hk).
  assert (Es : shift (m * 2 ^ k) (e - k) = shift m e + k).
  { rewrite !shift_eq, Zdigits2_scale by lia. lia. }
  rewrite !Rnd_spec by (try nia; lia).
  rewrite Es, rnd_scale by lia. f_equal. lia.
Qed.

(** *** Rounded results are canonical *)

Lemma valid_canon (s : bool) (m : positive) (e : Z) :
  valid_binary prec emax (S754_finite s m e) = true -> canon m e.
Proof.
  cbn [valid_binary]. unfold bounded, canonical_mantissa.
  intros H. apply andb_prop in H as [H _]. apply Z.eqb_eq in H.
  rewrite fexp_eq in H. unfold canon. cbn [Zdigits2]. lia.
Qed.

Lemma Rnd_good (m e : Z) : 0 < m -> 0 <= shift m e -> good (Rnd m e).
Proof.
  intros Hm Hs. rewrite Rnd_spec by assumption.
  pose proof (shift_eq m e) as En.
  pose proof (rnd_range m e Hm Hs) as Rq.
  destruct (finish_cases (rnd m (shift m e)) (e + shift m e) ltac:(lia) Rq)
    as [[_ ->]|[(p & Ep & Lp & ->)|[_ ->]]].
  - exact I.
  - destruct (Z.leb_spec (e + shift m e) 104); [|reflexivity].
    split; [reflexivity|]. unfold canon.
    assert (Zdigits2 (Zpos p) <= 24) by (apply Zdigits2_le; lia).
    repeat split; [assumption|lia|]. intros Hgt.
    assert (2 ^ 23 <= rnd m (shift m e)) by (apply rnd_normal; lia).
    apply Zdigits2_unique; lia.
  - destruct (Z.leb_spec (e + shift m e + 1) 104); [|reflexivity].
    split; [reflexivity|]. unfold canon.
    change (Zdigits2 (Zpos (2 ^ 23))) with 24. lia.
Qed.

Lemma le_zero_good (s : bool) (z : float) :
  good z -> le (S754_zero s) z = true.
Proof. destruct z as [?|[]| |[] ? ?]; cbn; intuition congruence. Qed.

Lemma le_good_inf (z : float) :
  good z -> le z (S754_infinity false) = true.
Proof. destruct z as [?|[]| |[] ? ?]; cbn; intuition congruence. Qed.

(** Two canonical numbers in order stay in order when both are multiplied by
    [c * 2^d] and rounded. *)
Lemma Rnd_lex_mono (m1 m2 : positive) (e1 e2 c d : Z) :
  canon m1 e1 -> canon m2 e2 ->
  le (S754_finite false m1 e1) (S754_finite false m2 e2) = true ->
  0 < c ->
  0 <= shift (Zpos m1 * c) (e1 + d) -> 0 <= shift (Zpos m2 * c) (e2 + d) ->
  le (Rnd (Zpos m1 * c) (e1 + d)) (Rnd (Zpos m2 * c) (e2 + d)) = true.
Proof.
  intros (D1 & L1 & N1) (D2 & L2 & N2) Hle Hc S1 S2.
  apply SFleb_lex_inv in Hle. destruct Hle as [Hlt|[-> Hm]].
  - remember (e2 - e1) as k eqn:Ek. assert (Hk : 0 < k) by lia.
    rewrite <- (Rnd_scale (Zpos m2 * c) (e2 + d) k) by nia.
    replace (e2 + d - k) with (e1 + d) by lia.
    apply Rnd_mono; [nia| |assumption].
    pose proof (Zdigits2_bounds (Zpos m1) ltac:(lia)) as [_ H1].
    pose proof (Zdigits2_bounds (Zpos m2) ltac:(lia)) as [H2 _].
    rewrite N2 in H2 by lia.
    assert (2 ^ Zdigits2 (Zpos m1) <= 2 ^ 24) by (apply Z.pow_le_mono_r; lia).
    assert (2 ^ 1 <= 2 ^ k) by (apply Z.pow_le_mono_r; lia).
    change (2 ^ 1) with 2 in *. change (2 ^ (24 - 1)) with 8388608 in *.
    change (2 ^ 24) with 16777216 in *.
    assert (Hmm : Zpos m1 <= Zpos m2 * 2 ^ k) by nia.
    replace (Zpos m2 * c * 2 ^ k) with (Zpos m2 * 2 ^ k * c) by ring.
    apply Z.mul_le_mono_nonneg_r; lia.
  - apply Rnd_mono; [nia|nia|assumption].
Qed.

(** *** Multiplication by a constant and division by 1024 *)

Lemma mul_finite (mx mc : positive) (ex ec : Z) :
  mul (S754_finite false mx ex) (S754_finite false mc ec)
  = Rnd (Zpos mx * Zpos mc) (ex + ec).
Proof. reflexivity. Qed.

Lemma shift_mul_normal (mx mc : positive) (e : Z) :
  2 ^ 23 <= Zpos mc -> 0 <= shift (Zpos mx * Zpos mc) e.
Proof.
  intros Hc. rewrite shift_eq.
  assert (24 <= Zdigits2 (Zpos mx * Zpos mc)).
  { apply Zdigits2_ge; [lia|]. change (2 ^ (24 - 1)) with (2 ^ 23). nia. }
  lia.
Qed.

Lemma shift_canon (m : positive) (e d : Z) :
  canon m e -> d <= 0 -> 0 <= shift (Zpos m) (e + d).
Proof. intros (D & L & N) Hd. rewrite shift_eq. lia. Qed.

(** Division by 1024 is the rounding of the number with its exponent
    lowered by 10. *)
Lemma div_1024 (m : positive) (e : Z) :
  canon m e ->
  div (S754_finite false m e) (of_int 1024) = Rnd (Zpos m) (e - 10).
Proof.
  intros Hc. pose proof Hc as (D & L & N).
  change (of_int 1024) with (S754_finite false 8388608 (-13)).
  unfold div, SFdiv, SFdiv_core_binary. cbn [xorb].
  change (Zdigits2 (Zpos 8388608)) with 24. rewrite fexp_eq.
  destruct (Z_le_gt_dec (-138) e) as [He|He].
  - (* the quotient is exact *)
    rewrite N by lia.
    replace (Z.min (Z.max (24 + e - (24 + -13) - 24) (-149)) (e - -13))
      with (e - 11) by lia.
    replace (e - -13 - (e - 11)) with 24 by lia.
    rewrite Z.shiftl_mul_pow2 by lia.
    replace (Zpos m * 2 ^ 24) with (Zpos m * 2 * 8388608) by lia.
    assert (Ed : Z.div_eucl (Zpos m * 2 * 8388608) 8388608 = (Zpos m * 2, 0)).
    { pose proof (Z.div_eucl_eq (Zpos m * 2 * 8388608) 8388608 ltac:(lia)) as E.
      pose proof (Z.mod_pos_bound (Zpos m * 2 * 8388608) 8388608 ltac:(lia)) as B.
      unfold Z.modulo in B.
      destruct (Z.div_eucl (Zpos m * 2 * 8388608) 8388608) as [q r].
      f_equal; lia. }
    rewrite Ed. change (new_location 8388608 0) with loc_Exact.
    fold (Rnd (Zpos m * 2) (e - 11)).
    change 2 with (2 ^ 1) at 1.
    replace (e - 11) with (e - 10 - 1) by lia.
    apply Rnd_scale; try lia. apply (shift_canon m e (-10) Hc). lia.
  - (* the quotient is below the normal range and is rounded *)
    replace (Z.min (Z.max (Zdigits2 (Zpos m) + e - (24 + -13) - 24) (-149)) (e - -13))
      with (-149) by lia.
    replace (e - -13 - -149) with (e + 162) by lia.
    set (s := e + 162). assert (Hs : 13 <= s <= 23) by (unfold s; lia).
    assert (Em' : match s with
                  | 0 => Zpos m
                  | Zpos _ => Z.shiftl (Zpos m) s
                  | Zneg _ => 0
                  end = Zpos m * 2 ^ s).
    { destruct s; try lia. apply Z.shiftl_mul_pow2. lia. }
    rewrite Em'. set (m' := Zpos m * 2 ^ s).
    pose proof (pow2_pos s ltac:(lia)) as Hps.
    assert (Hm' : 0 < m') by (unfold m'; nia).
    pose proof (Z.div_eucl_eq m' 8388608 ltac:(lia)) as E.
    pose proof (Z.mod_pos_bound m' 8388608 ltac:(lia)) as B.
    assert (Eq : m' / 2 ^ 23 = fst (Z.div_eucl m' 8388608)) by reflexivity.
    assert (Er : m' mod 2 ^ 23 = snd (Z.div_eucl m' 8388608)) by reflexivity.
    unfold Z.modulo in B.
    destruct (Z.div_eucl m' 8388608) as [q r]. cbn [fst snd] in Eq, Er.
    (* the right-hand side *)
    rewrite <- (Rnd_scale (Zpos m) (e - 10) s) by (try apply (shift_canon m e (-10) Hc); lia).
    fold m'.
    assert (Esh : shift m' (e - 10 - s) = 23).
    { unfold m'. rewrite shift_eq, Zdigits2_scale by lia. unfold s. lia. }
    rewrite Rnd_spec by lia. rewrite Esh.
    replace (e - 10 - s + 23) with (-149) by (unfold s; lia).
    (* the left-hand side *)
    assert (Hq : 0 <= q < 2 ^ 24).
    { assert (m' < 2 ^ (24 + s)).
      { unfold m'. rewrite Z.pow_add_r by lia.
        pose proof (Zdigits2_bounds (Zpos m) ltac:(lia)) as [_ Hhi].
        assert (2 ^ Zdigits2 (Zpos m) <= 2 ^ 24) by (apply Z.pow_le_mono_r; lia).
        nia. }
      assert (2 ^ (24 + s) <= 2 ^ 47) by (apply Z.pow_le_mono_r; lia).
      change (2 ^ 47) with (2 ^ 24 * 8388608) in *. nia. }
    unfold binary_round_aux. unfold shr_fexp at 1.
    assert (Esq : fexp prec emax (Zdigits2 q + -149) - -149 = 0).
    { rewrite fexp_eq. destruct (Z.eq_dec q 0) as [->|Hq0]; [reflexivity|].
      pose proof (Zdigits2_le q 24 ltac:(lia) ltac:(lia)). lia. }
    rewrite Esq. cbn [shr].
    assert (Ernd : round_nearest_even
                     (shr_m (shr_record_of_loc q (new_location 8388608 r)))
                     (loc_of_shr_record
                        (shr_record_of_loc q (new_location 8388608 r)))
                   = rnd m' 23).
    { unfold rnd. rewrite Eq, Er. change (2 ^ 23) with 8388608.
      unfold new_location. change (Z.even 8388608) with true. cbv iota.
      unfold new_location_even.
      destruct (Z.eqb_spec r 0) as [->|Hr].
      - reflexivity.
      - destruct (2 * r ?= 8388608); reflexivity. }
    rewrite Ernd. reflexivity.
Qed.

Lemma div_1024_good (z : float) :
  good z -> good (div z (of_int 1024)).
Proof.
  destruct z as [s|s| |s m e]; cbn [good]; try contradiction.
  - intros _. exact I.
  - intros ->. reflexivity.
  - intros [-> Hc]. rewrite div_1024 by assumption.
    apply Rnd_good; [lia|]. apply (shift_canon m e (-10) Hc). lia.
Qed.

Lemma div_1024_mono (z1 z2 : float) :
  good z1 -> good z2 -> le z1 z2 = true ->
  le (div z1 (of_int 1024)) (div z2 (of_int 1024)) = true.
Proof.
  intros G1 G2 Hle.
  destruct z1 as [s1|s1| |s1 m1 e1]; cbn [good] in G1; try contradiction.
  - apply (le_zero_good _ _ (div_1024_good z2 G2)).
  - subst s1. destruct z2 as [s2|s2| |s2 m2 e2]; cbn [good] in G2;
      try contradiction; try discriminate.
    subst s2. reflexivity.
  - destruct G1 as [-> C1].
    destruct z2 as [s2|s2| |s2 m2 e2]; cbn [good] in G2;
      try contradiction; try discriminate.
    + subst s2. apply le_good_inf.
      apply (div_1024_good (S754_finite false m1 e1)). now split.
    + destruct G2 as [-> C2]. rewrite !div_1024 by assumption.
      replace (e1 - 10) with (e1 + -10) by lia.
      replace (e2 - 10) with (e2 + -10) by lia.
      rewrite <- (Z.mul_1_r (Zpos m1)), <- (Z.mul_1_r (Zpos m2)).
      apply Rnd_lex_mono; try assumption; try lia;
        rewrite Z.mul_1_r; apply shift_canon; assumption || lia.
Qed.

Lemma mul_good (x : float) (mc : positive) (ec : Z) :
  2 ^ 23 <= Zpos mc ->
  good x -> good (mul x (S754_finite false mc ec)).
Proof.
  intros Hc. destruct x as [s|s| |s m e]; cbn [good]; try contradiction.
  - intros _. exact I.
  - intros ->. reflexivity.
  - intros [-> C]. rewrite mul_finite.
    apply Rnd_good; [lia|]. now apply shift_mul_normal.
Qed.

Lemma mul_mono (x y : float) (mc : positive) (ec : Z) :
  2 ^ 23 <= Zpos mc ->
  good x -> good y -> le x y = true ->
  le (mul x (S754_finite false mc ec)) (mul y (S754_finite false mc ec)) = true.
Proof.
  intros Hc G1 G2 Hle.
  destruct x as [s1|s1| |s1 m1 e1]; cbn [good] in G1; try contradiction.
  - apply (le_zero_good _ _ (mul_good y mc ec Hc G2)).
  - subst s1. destruct y as [s2|s2| |s2 m2 e2]; cbn [good] in G2;
      try contradiction; try discriminate.
    subst s2. reflexivity.
  - destruct G1 as [-> C1].
    destruct y as [s2|s2| |s2 m2 e2]; cbn [good] in G2;
      try contradiction; try discriminate.
    + subst s2. apply le_good_inf.
      apply (mul_good (S754_finite false m1 e1) mc ec Hc). now split.
    + destruct G2 as [-> C2]. rewrite !mul_finite.
      apply Rnd_lex_mono; try assumption; try lia;
        now apply shift_mul_normal.
Qed.

Lemma valid_nonneg_good (x : float) :
  valid_binary prec emax x = true -> le (of_int 0) x = true -> good x.
Proof.
  intros Hv H0. destruct x as [s|s| |s m e]; cbn [good].
  - exact I.
  - destruct s; [discriminate|reflexivity].
  - discriminate.
  - destruct s; [discriminate|]. split; [reflexivity|].
    now apply (valid_canon false).
Qed.

(** *** Checking a range of integers by computation *)

Lemma all_from_spec (P : Z -> bool) (n : nat) :
  forall lo, all_from P lo n = true ->
  forall z, lo <= z < lo + Z.of_nat n -> P z = true.
Proof.
  induction n as [|k IH]; intros lo H z Hz; [lia|].
  cbn [all_from] in H. apply andb_prop in H as [H0 Hk].
  destruct (Z.eq_dec z lo) as [->|Hne]; [exact H0|].
  apply (IH (lo + 1)); [exact Hk | lia].
Qed.

(** *** Values and rounding errors *)

Lemma to_Q_finite (m : positive) (e : Z) :
  (to_Q (S754_finite false m e) == dyadic (Zpos m) e)%Q.
Proof.
  unfold to_Q, dyadic. destruct e as [|p|p].
  - rewrite Z.mul_1_r. cbn. ring.
  - rewrite inject_Z_mult, Zpower_Qpower by lia. reflexivity.
  - rewrite Qmake_Qdiv. unfold Qdiv. apply Qmult_comp; [reflexivity|].
    change (Zneg p) with (- Zpos p). rewrite Qpower_opp.
    rewrite Pos2Z.inj_pow, (Zpower_Qpower 2 (Zpos p)) by lia. reflexivity.
Qed.

Lemma pow2_Q_pos (z : Z) : (0 < 2 ^ z)%Q.
Proof. apply Qpower_0_lt. reflexivity. Qed.

Lemma pow2_Q_add (a b : Z) : (2 ^ (a + b) == 2 ^ a * 2 ^ b)%Q.
Proof. apply Qpower_plus. discriminate. Qed.

Lemma pow2_Q_le (a b : Z) : a <= b -> (2 ^ a <= 2 ^ b)%Q.
Proof. intros H. apply Qpower_le_compat_l; [exact H|]. discriminate. Qed.

Lemma dyadic_scale (m e k : Z) :
  0 <= k -> (dyadic (m * 2 ^ k) (e - k) == dyadic m e)%Q.
Proof.
  intros Hk. unfold dyadic.
  rewrite inject_Z_mult, Zpower_Qpower by lia.
  replace e with ((e - k) + k) at 2 by lia. rewrite pow2_Q_add.
  change (inject_Z 2) with 2%Q. ring.
Qed.

Lemma dyadic_mul (m1 m2 e1 e2 : Z) :
  (dyadic (m1 * m2) (e1 + e2) == dyadic m1 e1 * dyadic m2 e2)%Q.
Proof.
  unfold dyadic. rewrite inject_Z_mult, pow2_Q_add. ring.
Qed.

Lemma dyadic_add (m1 m2 e : Z) :
  (dyadic (m1 + m2) e == dyadic m1 e + dyadic m2 e)%Q.
Proof. unfold dyadic. rewrite inject_Z_plus. ring. Qed.

Lemma dyadic_le (m1 m2 e : Z) :
  m1 <= m2 -> (dyadic m1 e <= dyadic m2 e)%Q.
Proof.
  intros H. unfold dyadic. apply Qmult_le_compat_r.
  - now rewrite <- Zle_Qle.
  - apply Qlt_le_weak, pow2_Q_pos.
Qed.

(** The rounded integer is within half a unit of [m / 2^n]. *)
Lemma rnd_err (m n : Z) :
  0 <= n -> - 2 ^ n <= 2 * (rnd m n * 2 ^ n - m) <= 2 ^ n.
Proof.
  intros Hn. pose proof (pow2_pos n Hn) as Hp. unfold rnd.
  pose proof (Z.div_mod m (2 ^ n) ltac:(lia)) as E.
  pose proof (Z.mod_pos_bound m (2 ^ n) Hp) as B.
  set (q := m / 2 ^ n) in *. set (r := m mod 2 ^ n) in *.
  destruct (Z.compare_spec (2 * r) (2 ^ n)); [destruct (Z.even q)| |]; nia.
Qed.

Lemma u32_pow : (u32 == 2 ^ (-24))%Q.
Proof. reflexivity. Qed.

Lemma eta32_pow : (eta32 == 2 ^ (-150))%Q.
Proof. reflexivity. Qed.

Lemma Rnd_value (m e : Z) :
  0 < m -> 0 <= shift m e -> Zdigits2 m + e <= 127 ->
  is_finite (Rnd m e) = true
  /\ good (Rnd m e)
  /\ (to_Q (Rnd m e) == dyadic (rnd m (shift m e)) (e + shift m e))%Q.
Proof.
  intros Hm Hs Hd. split; [|split; [now apply Rnd_good|]];
    rewrite Rnd_spec by assumption;
    pose proof (shift_eq m e) as En;
    pose proof (rnd_range m e Hm Hs) as Rq;
    destruct (finish_cases (rnd m (shift m e)) (e + shift m e) ltac:(lia) Rq)
      as [[Eq ->]|[(p & Ep & Lp & ->)|[Eq ->]]].
  - reflexivity.
  - destruct (Z.leb_spec (e + shift m e) 104); [reflexivity|lia].
  - destruct (Z.leb_spec (e + shift m e + 1) 104); [reflexivity|lia].
  - rewrite Eq. unfold dyadic. cbn. ring.
  - destruct (Z.leb_spec (e + shift m e) 104); [|lia].
    rewrite Ep. apply to_Q_finite.
  - destruct (Z.leb_spec (e + shift m e + 1) 104); [|lia].
    rewrite Eq, to_Q_finite.
    rewrite <- (dyadic_scale (Zpos (2 ^ 23)) (e + shift m e + 1) 1) by lia.
    replace (e + shift m e + 1 - 1) with (e + shift m e) by lia.
    reflexivity.
Qed.

(** The rounding error: at most [2^-24] of the number, or [2^-150] below the
    normal range. *)
Lemma Rnd_err (m e : Z) :
  0 < m -> 0 <= shift m e -> Zdigits2 m + e <= 127 ->
  (- (u32 * dyadic m e + eta32) <= to_Q (Rnd m e) - dyadic m e
   <= u32 * dyadic m e + eta32)%Q.
Proof.
  intros Hm Hs Hd.
  destruct (Rnd_value m e Hm Hs Hd) as (_ & _ & ->).
  set (n := shift m e) in *. set (q := rnd m n).
  pose proof (rnd_err m n Hs) as [Elo Ehi]. fold q in Elo, Ehi.
  pose proof (pow2_pos n Hs) as Hp.
  (* the rounded number on the exponent [e] *)
  assert (Eq : (dyadic q (e + n) == dyadic (q * 2 ^ n) e)%Q).
  { rewrite <- (dyadic_scale q (e + n) n) by lia.
    replace (e + n - n) with e by lia. reflexivity. }
  rewrite Eq.
  assert (Hlo : (dyadic (2 * m - 2 ^ n) e <= dyadic (2 * (q * 2 ^ n)) e)%Q)
    by (apply dyadic_le; lia).
  assert (Hhi : (dyadic (2 * (q * 2 ^ n)) e <= dyadic (2 * m + 2 ^ n) e)%Q)
    by (apply dyadic_le; lia).
  replace (2 * m - 2 ^ n) with (2 * m + - 2 ^ n) in Hlo by lia.
  rewrite dyadic_add in Hlo, Hhi.
  assert (E2 : forall a, (dyadic (2 * a) e == 2 * dyadic a e)%Q).
  { intros a. unfold dyadic. rewrite inject_Z_mult. change (inject_Z 2) with 2%Q. ring. }
  rewrite !E2 in Hlo, Hhi.
  assert (Eopp : (dyadic (- 2 ^ n) e == - dyadic (2 ^ n) e)%Q).
  { unfold dyadic. rewrite inject_Z_opp. ring. }
  rewrite Eopp in Hlo.
  (* half a unit in the last place against the bound *)
  assert (Hulp : (dyadic (2 ^ n) e <= 2 * (u32 * dyadic m e + eta32))%Q).
  { pose proof (shift_eq m e) as En. fold n in En.
    pose proof (Zdigits2_bounds m Hm) as [Hdl _].
    assert (Epn : (dyadic (2 ^ n) e == 2 ^ (n + e))%Q).
    { unfold dyadic. rewrite Zpower_Qpower, pow2_Q_add by lia. reflexivity. }
    rewrite Epn.
    assert (Hv : (0 <= dyadic m e)%Q).
    { unfold dyadic. apply Qmult_le_0_compat;
        [rewrite <- (Zle_Qle 0); lia | apply Qlt_le_weak, pow2_Q_pos]. }
    destruct (Z_le_gt_dec (-149 - e) (Zdigits2 m - 24)) as [Hb|Hb].
    - assert (Hn : n = Zdigits2 m - 24) by lia.
      assert (Hw : (2 ^ (Zdigits2 m - 1 + e) <= dyadic m e)%Q).
      { rewrite pow2_Q_add. unfold dyadic.
        apply Qmult_le_compat_r; [|apply Qlt_le_weak, pow2_Q_pos].
        change (2 ^ (Zdigits2 m - 1))%Q with (inject_Z 2 ^ (Zdigits2 m - 1))%Q.
        rewrite <- Zpower_Qpower by lia. now rewrite <- Zle_Qle. }
      assert (Es : (2 ^ (n + e) == 2 * u32 * 2 ^ (Zdigits2 m - 1 + e))%Q).
      { replace (n + e) with (-23 + (Zdigits2 m - 1 + e)) by lia.
        rewrite pow2_Q_add. apply Qmult_comp; reflexivity. }
      rewrite Es. pose proof (pow2_Q_pos (-150)) as He.
      rewrite <- eta32_pow in He. unfold u32 in *. lra.
    - assert (Hn : n + e = -149) by lia. rewrite Hn.
      assert (E149 : (2 ^ (-149) == 2 * eta32)%Q) by (vm_compute; reflexivity).
      rewrite E149. unfold u32, eta32 in *. lra. }
  lra.
Qed.

Lemma dyadic_pos (m e : Z) : 0 < m -> (0 < dyadic m e)%Q.
Proof.
  intros Hm. unfold dyadic. apply Qmult_lt_0_compat; [|apply pow2_Q_pos].
  rewrite <- (Zlt_Qlt 0). exact Hm.
Qed.

Lemma good_nonneg (x : float) : good x -> (0 <= to_Q x)%Q.
Proof.
  destruct x as [s|s| |s m e]; cbn [good]; try (intros; apply Qle_refl).
  intros [-> _]. rewrite to_Q_finite. apply Qlt_le_weak, dyadic_pos. lia.
Qed.

(** A number below [2^k] has its leading bit below position [k]. *)
Lemma digits_of_value (m e k : Z) :
  0 < m -> (dyadic m e < 2 ^ k)%Q -> Zdigits2 m + e <= k.
Proof.
  intros Hm Hv. pose proof (Zdigits2_bounds m Hm) as [Hlo _].
  assert (0 < Zdigits2 m) by (destruct m; cbn; lia).
  assert (Hw : (2 ^ (Zdigits2 m - 1 + e) <= dyadic m e)%Q).
  { rewrite pow2_Q_add. unfold dyadic.
    apply Qmult_le_compat_r; [|apply Qlt_le_weak, pow2_Q_pos].
    change (2 ^ (Zdigits2 m - 1))%Q with (inject_Z 2 ^ (Zdigits2 m - 1))%Q.
    rewrite <- Zpower_Qpower by lia. now rewrite <- Zle_Qle. }
  assert (Hlt : (2 ^ (Zdigits2 m - 1 + e) < 2 ^ k)%Q)
    by (eapply Qle_lt_trans; eassumption).
  apply Qpower_lt_compat_l_inv in Hlt; [lia|reflexivity].
Qed.

(** *** The error of a multiplication

    One of the factors is a normal number, so that the product has at least
    24 bits; the product is below the overflow threshold. *)
Lemma mul_err (x y : float) :
  good x -> good y -> is_finite x = true -> is_finite y = true ->
  (exists m e, (x = S754_finite false m e \/ y = S754_finite false m e)
               /\ 2 ^ 23 <= Zpos m) ->
  (to_Q x * to_Q y < 2 ^ 127)%Q ->
  is_finite (mul x y) = true /\ good (mul x y)
  /\ (- (u32 * (to_Q x * to_Q y) + eta32) <= to_Q (mul x y) - to_Q x * to_Q y
      <= u32 * (to_Q x * to_Q y) + eta32)%Q.
Proof.
  intros Gx Gy Fx Fy Hn Hv.
  assert (Hz : forall q : Q, (q == 0)%Q ->
               (- (u32 * q + eta32) <= 0 - q <= u32 * q + eta32)%Q).
  { intros q ->. unfold u32, eta32. lra. }
  destruct x as [sx|sx| |sx mx ex]; try discriminate;
    destruct y as [sy|sy| |sy my ey]; try discriminate;
    cbn [good] in Gx, Gy.
  - split; [reflexivity|]. split; [exact I|]. apply Hz. cbn. ring.
  - split; [reflexivity|]. split; [exact I|]. apply Hz. cbn. ring.
  - split; [reflexivity|]. split; [exact I|]. apply Hz. cbn. ring.
  - destruct Gx as [-> Cx], Gy as [-> Cy].
    rewrite mul_finite. rewrite !to_Q_finite in Hv |- *.
    rewrite <- dyadic_mul in Hv |- *.
    assert (Hs : 0 <= shift (Zpos mx * Zpos my) (ex + ey)).
    { destruct Hn as (m & e & [E|E] & Hm); inversion E; subst.
      - rewrite Z.mul_comm. now apply shift_mul_normal.
      - now apply shift_mul_normal. }
    assert (Hp : 0 < Zpos mx * Zpos my) by nia.
    assert (Hd : Zdigits2 (Zpos mx * Zpos my) + (ex + ey) <= 127)
      by (apply digits_of_value; assumption).
    destruct (Rnd_value _ _ Hp Hs Hd) as (F & G & _).
    split; [exact F|]. split; [exact G|].
    apply Rnd_err; assumption.
Qed.

(** *** The error of an addition *)

Lemma iter_xO (m d : positive) :
  Zpos (Pos.iter xO m d) = Zpos m * 2 ^ Zpos d.
Proof.
  induction d as [|d IH] using Pos.peano_ind.
  - cbn. lia.
  - rewrite Pos.iter_succ, Pos2Z.inj_xO, IH, Pos2Z.inj_succ, Z.pow_succ_r by lia.
    lia.
Qed.

Lemma shl_align_spec (m : positive) (e e' : Z) :
  exists mz, shl_align m e e' = (mz, Z.min e e')
             /\ Zpos mz = Zpos m * 2 ^ (e - Z.min e e').
Proof.
  unfold shl_align. destruct (e' - e) as [|d|d] eqn:E.
  - exists m. replace (Z.min e e') with e by lia.
    rewrite Z.sub_diag. split; [reflexivity|lia].
  - exists m. replace (Z.min e e') with e by lia.
    rewrite Z.sub_diag. split; [reflexivity|lia].
  - exists (Pos.iter xO m d). replace (Z.min e e') with e' by lia.
    split; [reflexivity|]. rewrite iter_xO. f_equal. f_equal. lia.
Qed.

Lemma binary_round_Rnd (M : positive) (e : Z) :
  exists m' e', 0 < m' /\ 0 <= shift m' e'
    /\ binary_round prec emax false M e = Rnd m' e'
    /\ (dyadic m' e' == dyadic (Zpos M) e)%Q.
Proof.
  unfold binary_round.
  destruct (shl_align_spec M e (fexp prec emax (Zpos (digits2_pos M) + e)))
    as (mz & -> & Emz).
  set (f := fexp prec emax (Zpos (digits2_pos M) + e)) in *.
  exists (Zpos mz), (Z.min e f). split; [lia|].
  assert (Hk : 0 <= e - Z.min e f) by lia.
  split; [|split; [reflexivity|]].
  - unfold shift. rewrite Emz, Zdigits2_scale by lia.
    cbn [Zdigits2]. replace (Zpos (digits2_pos M) + (e - Z.min e f) + Z.min e f)
      with (Zpos (digits2_pos M) + e) by lia.
    fold f. lia.
  - rewrite Emz.
    replace (Z.min e f) with (e - (e - Z.min e f)) at 2 by lia.
    now apply dyadic_scale.
Qed.

Lemma add_err (a b : float) :
  good a -> good b -> is_finite a = true -> is_finite b = true ->
  (to_Q a + to_Q b < 2 ^ 127)%Q ->
  is_finite (add a b) = true /\ good (add a b)
  /\ (- (u32 * (to_Q a + to_Q b) + eta32) <= to_Q (add a b) - (to_Q a + to_Q b)
      <= u32 * (to_Q a + to_Q b) + eta32)%Q.
Proof.
  intros Ga Gb Fa Fb Hv.
  pose proof (good_nonneg a Ga) as Na. pose proof (good_nonneg b Gb) as Nb.
  assert (Hx : forall x : float,
             (to_Q x == to_Q a + to_Q b)%Q ->
             (- (u32 * (to_Q a + to_Q b) + eta32) <= to_Q x - (to_Q a + to_Q b)
              <= u32 * (to_Q a + to_Q b) + eta32)%Q).
  { intros x ->. unfold u32, eta32. lra. }
  destruct a as [sa|sa| |sa ma ea]; try discriminate;
    destruct b as [sb|sb| |sb mb eb]; try discriminate.
  - assert (E : add (S754_zero sa) (S754_zero sb) = S754_zero sa
                \/ add (S754_zero sa) (S754_zero sb) = S754_zero false)
      by (destruct sa, sb; cbn; auto).
    destruct E as [-> | ->]; (split; [reflexivity|]; split; [exact I|]);
      apply Hx; cbn; ring.
  - change (add (S754_zero sa) (S754_finite sb mb eb)) with (S754_finite sb mb eb).
    split; [reflexivity|]. split; [exact Gb|]. apply Hx. cbn [to_Q]. ring.
  - change (add (S754_finite sa ma ea) (S754_zero sb)) with (S754_finite sa ma ea).
    split; [reflexivity|]. split; [exact Ga|]. apply Hx. cbn [to_Q]. ring.
  - cbn [good] in Ga, Gb. destruct Ga as [-> Ca], Gb as [-> Cb].
    unfold add, SFadd. cbn [cond_Zopp].
    set (ez := Z.min ea eb).
    destruct (shl_align_spec ma ea ez) as (za & Ea & Eza).
    destruct (shl_align_spec mb eb ez) as (zb & Eb & Ezb).
    rewrite Ea, Eb. cbn [fst].
    replace (Z.min ea ez) with ez in * by (unfold ez; lia).
    replace (Z.min eb ez) with ez in * by (unfold ez; lia).
    change (Zpos za + Zpos zb) with (Zpos (za + zb)). cbn [binary_normalize].
    destruct (binary_round_Rnd (za + zb) ez) as (m' & e' & Hm' & Hs' & -> & Ev).
    assert (Esum : (dyadic m' e' == to_Q (S754_finite false ma ea)
                                   + to_Q (S754_finite false mb eb))%Q).
    { rewrite Ev, !to_Q_finite, Pos2Z.inj_add, dyadic_add, Eza, Ezb.
      replace ez with (ea - (ea - ez)) at 2 by lia.
      replace ez with (eb - (eb - ez)) at 4 by lia.
      rewrite !dyadic_scale by (unfold ez; lia). reflexivity. }
    rewrite <- Esum in Hv |- *.
    assert (Hd : Zdigits2 m' + e' <= 127) by (now apply digits_of_value).
    destruct (Rnd_value m' e' Hm' Hs' Hd) as (F & G & _).
    split; [exact F|]. split; [exact G|].
    now apply Rnd_err.
Qed.

(** *** Numbers of the ADC range *)

Lemma below_2_127 (q : Q) : (q <= 4096)%Q -> (q < 2 ^ 127)%Q.
Proof.
  intros H.
  assert (E : (2 ^ 127 == 170141183460469231731687303715884105728 # 1)%Q)
    by reflexivity.
  rewrite E. lra.
Qed.

Lemma of_int_adc (r : Z) :
  0 <= r <= 1023 ->
  good (of_int r) /\ is_finite (of_int r) = true
  /\ (to_Q (of_int r) == inject_Z r)%Q.
Proof.
  intros Hr.
  assert (H : all_from
                (fun r => valid_binary prec emax (of_int r)
                          && le (of_int 0) (of_int r)
                          && is_finite (of_int r)
                          && Qeq_bool (to_Q (of_int r)) (inject_Z r))
                0 (Z.to_nat 1024) = true) by (vm_compute; reflexivity).
  pose proof (all_from_spec _ _ _ H r) as Hz.
  rewrite Z2Nat.id in Hz by lia. specialize (Hz ltac:(lia)).
  apply andb_prop in Hz as [Hz Hq]. apply andb_prop in Hz as [Hz Hf].
  apply andb_prop in Hz as [Hv H0].
  split; [now apply valid_nonneg_good|]. split; [exact Hf|].
  now apply Qeq_bool_iff.
Qed.

Lemma good_valid (x : float) :
  good x -> is_finite x = true -> (to_Q x <= 4096)%Q ->
  valid_binary prec emax x = true.
Proof.
  intros G F Hv. destruct x as [s|s| |s m e]; try reflexivity; try discriminate.
  destruct G as [-> (D & L & N)].
  cbn [valid_binary]. unfold bounded, canonical_mantissa.
  rewrite to_Q_finite in Hv. apply below_2_127 in Hv.
  apply digits_of_value in Hv; [|lia]. cbn [Zdigits2] in *.
  rewrite fexp_eq.
  assert (0 < Zpos (digits2_pos m)) by lia.
  apply andb_true_intro. split; [apply Z.eqb_eq|apply Z.leb_le]; unfold prec, emax; lia.
Qed.

End Float32Facts.

(** * Properties of the sampler *)

Module SamplerProofs.
Import Float32 Float32Facts AnalogSampler.

(** *** The literal and the conversion of the raw sample *)

(** [alpha] is the binary32 number nearest to 0.9: it is within half a unit
    in the last place, [2^-25], of 9/10. *)
Lemma alpha_nearest :
  alpha = S754_finite false 15099494 (-24)
  /\ Qle (Qabs (to_Q alpha - (9 # 10))) (1 # 33554432).
Proof.
  split; [reflexivity|]. apply Qle_bool_iff. vm_compute. reflexivity.
Qed.

(** Every 16-bit [int] converts to [float] without rounding. *)
Lemma of_int_exact (r : Z) :
  -32768 <= r <= 32767 ->
  is_finite (of_int r) = true /\ Qeq (to_Q (of_int r)) (inject_Z r).
Proof.
  intros Hr.
  assert (H : all_from
                (fun r => is_finite (of_int r) &&
                          Qeq_bool (to_Q (of_int r)) (inject_Z r))
                (-32768) (Z.to_nat 65536) = true) by (vm_compute; reflexivity).
  pose proof (all_from_spec _ _ _ H r) as Hz.
  rewrite Z2Nat.id in Hz by lia.
  apply andb_prop in Hz as [Hf Hq]; [|lia].
  split; [exact Hf | now apply Qeq_bool_iff].
Qed.

(** The sentinel and zero both fail the test [last_val > 0]. *)
Lemma le_zero_not_gt (x : float) :
  le x (of_int 0) = true -> gt x (of_int 0) = false.
Proof.
  unfold le, gt, SFleb, SFltb. change (of_int 0) with (S754_zero false).
  destruct x as [s|s| |s m e]; try destruct s; cbn; congruence.
Qed.

Lemma update_bootstrap (r : Z) (g : globals) :
  gt (last_val g) (of_int 0) = false ->
  update r g = {| analogValue := of_int r;
                  previousMillis := previousMillis g;
                  last_val := of_int r |}.
Proof. intros H. unfold update. now rewrite H. Qed.

Lemma update_smooths (r : Z) (g : globals) :
  gt (last_val g) (of_int 0) = true ->
  analogValue (update r g)
  = add (mul alpha (last_val g)) (mul (sub (of_int 1) alpha) (of_int r)).
Proof. intros H. unfold update. now rewrite H. Qed.

(** The state is the returned value after every call. *)
Lemma update_stores_result (r : Z) (g : globals) :
  last_val (update r g) = analogValue (update r g).
Proof. reflexivity. Qed.

(** C3: the first call of the filter, made while [last_val] still holds the
    sentinel [-1.0], returns the raw sample [r] exactly (the conversion of the
    [int] to [float] does not round) and stores it as the new state. *)
Theorem first_update_returns_raw (r : Z) (g : globals) :
  -32768 <= r <= 32767 ->
  last_val g = of_int (-1) ->
  analogValue (update r g) = of_int r
  /\ Qeq (to_Q (analogValue (update r g))) (inject_Z r)
  /\ last_val (update r g) = of_int r.
Proof.
  intros Hr Hs.
  rewrite update_bootstrap by (rewrite Hs; reflexivity).
  cbn [analogValue last_val]. repeat split.
  apply (of_int_exact r Hr).
Qed.

Lemma first_update_returns_raw_witness :
  (-32768 <= 500 <= 32767 /\ last_val initial = of_int (-1))
  /\ analogValue (update 500 initial) = of_int 500
  /\ Qeq (to_Q (analogValue (update 500 initial))) (inject_Z 500)
  /\ last_val (update 500 initial) = of_int 500.
Proof.
  split; [split; [lia | reflexivity]|].
  apply (first_update_returns_raw 500 initial); [lia | reflexivity].
Defined.

(** Zeros keep the filter in its bootstrap branch. *)
Lemma feed_zeros (n : nat) :
  forall g r, gt (last_val g) (of_int 0) = false ->
  fst (feed (repeat 0 n ++ [r]) g) = repeat (of_int 0) n ++ [of_int r].
Proof.
  induction n as [|n IH]; intros g r Hg; cbn [repeat app feed].
  - now rewrite (update_bootstrap r g Hg).
  - rewrite (update_bootstrap 0 g Hg). cbn [analogValue].
    specialize (IH {| analogValue := of_int 0;
                      previousMillis := previousMillis g;
                      last_val := of_int 0 |} r eq_refl).
    destruct (feed (repeat 0 n ++ [r]) _) as [outs g'']. cbn in IH |- *.
    now rewrite IH.
Qed.

(** C10: a call made while the state is still uninitialised for the test
    ([last_val <= 0], the sentinel included) and that receives the raw sample
    0 stores 0, which the test [last_val > 0] rejects again; every call made
    in such a state returns its raw sample unchanged, so a run of zero
    samples keeps bootstrapping; once a call has stored a strictly positive
    value the next call applies the smoothing formula. *)
Theorem zero_sample_keeps_bootstrapping (g : globals) :
  le (last_val g) (of_int 0) = true ->
  (last_val (update 0 g) = of_int 0
   /\ gt (last_val (update 0 g)) (of_int 0) = false)
  /\ (forall r, analogValue (update r g) = of_int r
                /\ last_val (update r g) = of_int r)
  /\ (forall n r, fst (feed (repeat 0 n ++ [r]) g)
                  = repeat (of_int 0) n ++ [of_int r])
  /\ (forall r r', gt (of_int r) (of_int 0) = true ->
                   analogValue (update r' (update r g))
                   = add (mul alpha (of_int r))
                         (mul (sub (of_int 1) alpha) (of_int r'))).
Proof.
  intros Hle. apply le_zero_not_gt in Hle.
  assert (Hup : forall r, update r g
                          = {| analogValue := of_int r;
                               previousMillis := previousMillis g;
                               last_val := of_int r |})
    by (intros r; now apply update_bootstrap).
  split; [|split; [|split]].
  - rewrite Hup. split; reflexivity.
  - intros r. rewrite Hup. split; reflexivity.
  - intros n r. now apply feed_zeros.
  - intros r r' Hpos. rewrite update_smooths; rewrite Hup; [reflexivity|exact Hpos].
Qed.

Lemma zero_sample_keeps_bootstrapping_witness :
  le (last_val initial) (of_int 0) = true
  /\ (last_val (update 0 initial) = of_int 0
   /\ gt (last_val (update 0 initial)) (of_int 0) = false)
  /\ (forall r, analogValue (update r initial) = of_int r
                /\ last_val (update r initial) = of_int r)
  /\ (forall n r, fst (feed (repeat 0 n ++ [r]) initial)
                  = repeat (of_int 0) n ++ [of_int r])
  /\ (forall r r', gt (of_int r) (of_int 0) = true ->
                   analogValue (update r' (update r initial))
                   = add (mul alpha (of_int r))
                         (mul (sub (of_int 1) alpha) (of_int r'))).
Proof.
  split; [reflexivity|].
  apply (zero_sample_keeps_bootstrapping initial). reflexivity.
Defined.

(** C4, where the code departs from it: the history 0 left by a first sample
    0 is not smoothed.  The second call, with raw sample 100, returns 100 and
    not [0.9*0 + 0.1*100 = 10]; the sketch prints the voltage of 100. *)
Theorem zero_history_is_not_smoothed :
  fst (feed [0; 100] initial) = [of_int 0; of_int 100]
  /\ Qeq (to_Q (of_int 100)) 100
  /\ ~ Qle (Qabs (to_Q (of_int 100) - ((9 # 10) * 0 + (1 # 10) * 100))) 1
  /\ run [Tick 50 (fun _ => 0); Tick 100 (fun _ => 100)] initial
     = [line 50 (convert (of_int 0)); line 100 (convert (of_int 100))].
Proof.
  split; [reflexivity|]. split; [reflexivity|]. split; [|reflexivity].
  intros H. apply Qle_bool_iff in H. vm_compute in H. discriminate.
Qed.

(** C1 as the spec words it fails: nothing is printed in the pass at [t = 0],
    because [previousMillis] starts at 0 and no interval has elapsed. *)
Lemma scenario_silent_at_0 :
  ~ (exists v, run scenario initial !! 0%nat = Some (line 0 v)).
Proof. intros [v H]. cbn in H. discriminate. Qed.

(** C1, amended: on the clock [0, 20, 55, 60, 110] with the raw samples
    [500, 500, 600, 600, 700] the sketch prints in the passes at 55 and 110
    and in no other.  The pass at 55 is the first sample: the value is 600 and
    the voltage 2.9296875 (printed 2.93).  The pass at 110 smooths:
    [0.9*600 + 0.1*700 = 610], voltage about 2.98. *)
Theorem scenario_fires_at_55_and_110 :
  let s1 := of_int 600 in
  let s2 := add (mul alpha s1) (mul (sub (of_int 1) alpha) (of_int 700)) in
  run scenario initial
  = [ []; []; line 55 (convert s1); []; line 110 (convert s2) ]
  /\ fired_at scenario initial = [55; 110]
  /\ last_val (final scenario initial) = s2
  /\ Qeq (to_Q s1) 600 /\ Qeq (to_Q s2) 610
  /\ Qle (Qabs (to_Q (convert s1) - (293 # 100))) (5 # 1000)
  /\ Qle (Qabs (to_Q (convert s2) - (298 # 100))) (5 # 1000).
Proof.
  cbv zeta. repeat split; try (apply Qle_bool_iff); vm_compute; reflexivity.
Qed.

(** *** The smoothing step in numbers *)

(** One smoothing step is within [2^-12] of [0.9 h + 0.1 r]. *)
Lemma smooth_err (h : float) (r : Z) :
  valid_binary prec emax h = true -> is_finite h = true ->
  gt h (of_int 0) = true -> (to_Q h <= 1024)%Q ->
  0 <= r <= 1023 ->
  let s := add (mul alpha h) (mul (sub (of_int 1) alpha) (of_int r)) in
  settled s
  /\ (Qabs (to_Q s - ((9 # 10) * to_Q h + (1 # 10) * inject_Z r))
      <= 1 # 4096)%Q.
Proof.
  intros Vh Fh Ph Hh Hr.
  assert (Gh : good h).
  { apply valid_nonneg_good; [assumption|].
    destruct h as [?|[]| |[] ? ?]; cbn in *; congruence. }
  pose proof (good_nonneg h Gh) as Nh.
  destruct (of_int_adc r Hr) as (Gr & Fr & Er).
  assert (Hrq : (0 <= inject_Z r <= 1023)%Q).
  { split; [change 0%Q with (inject_Z 0) | change 1023%Q with (inject_Z 1023)];
      rewrite <- Zle_Qle; lia. }
  change alpha with (S754_finite false 15099494 (-24)).
  change (sub (of_int 1) (S754_finite false 15099494 (-24)))
    with (S754_finite false 13421776 (-27)).
  set (al := S754_finite false 15099494 (-24)).
  set (be := S754_finite false 13421776 (-27)).
  assert (Gal : good al) by (split; [reflexivity|now apply (valid_canon false)]).
  assert (Gbe : good be) by (split; [reflexivity|now apply (valid_canon false)]).
  assert (Eal : (to_Q al == 15099494 # 16777216)%Q) by reflexivity.
  assert (Ebe : (to_Q be == 13421776 # 134217728)%Q) by reflexivity.
  destruct (mul_err al h Gal Gh eq_refl Fh) as (Fa & Ga & Ba).
  { exists 15099494%positive, (-24). split; [left; reflexivity|].
    vm_compute; discriminate. }
  { apply below_2_127. rewrite Eal. lra. }
  destruct (mul_err be (of_int r) Gbe Gr eq_refl Fr) as (Fb & Gb & Bb).
  { exists 13421776%positive, (-27). split; [left; reflexivity|].
    vm_compute; discriminate. }
  { apply below_2_127. rewrite Ebe, Er. lra. }
  rewrite Eal in Ba. rewrite Ebe, Er in Bb.
  set (a := mul al h) in *. set (b := mul be (of_int r)) in *.
  pose proof (good_nonneg a Ga) as Na. pose proof (good_nonneg b Gb) as Nb.
  unfold u32, eta32 in Ba, Bb.
  destruct (add_err a b Ga Gb Fa Fb) as (Fs & Gs & Bs).
  { apply below_2_127. lra. }
  unfold u32, eta32 in Bs.
  cbv zeta. set (s := add a b) in *.
  assert (Hs : (to_Q s <= 1024)%Q) by lra.
  split.
  - split; [apply good_valid; [assumption|assumption|lra]|].
    split; [exact Fs|]. split; [|exact Hs].
    change (of_int 0) with (S754_zero false). now apply le_zero_good.
  - apply Qabs_Qle_condition. split; lra.
Qed.

(** With a positive history the filter returns [0.9 h + 0.1 r] up to
    [2^-12], and the result is again a settled value. *)
Lemma update_within_tolerance (r : Z) (g : globals) :
  settled (last_val g) -> gt (last_val g) (of_int 0) = true ->
  0 <= r <= 1023 ->
  settled (last_val (update r g))
  /\ (Qabs (to_Q (analogValue (update r g))
            - ((9 # 10) * to_Q (last_val g) + (1 # 10) * inject_Z r))
      <= 1 # 4096)%Q.
Proof.
  intros (V & F & _ & B) P Hr.
  rewrite update_stores_result, update_smooths by assumption.
  now apply smooth_err.
Qed.

(** [last_val] stays in range: once a sample has been taken it is a finite
    number between 0 and 1024. *)
Lemma update_settles (r : Z) (g : globals) :
  0 <= r <= 1023 -> in_range g -> settled (last_val (update r g)).
Proof.
  intros Hr Hg.
  destruct (gt (last_val g) (of_int 0)) eqn:P.
  - destruct Hg as [Hs|Hs]; [rewrite Hs in P; discriminate|].
    now apply update_within_tolerance.
  - rewrite (update_bootstrap r g P). cbn [last_val].
    destruct (of_int_adc r Hr) as (G & F & E).
    split; [|split; [exact F|split]].
    + apply good_valid; [assumption|assumption|]. rewrite E.
      change 4096%Q with (inject_Z 4096). rewrite <- Zle_Qle. lia.
    + change (of_int 0) with (S754_zero false). now apply le_zero_good.
    + rewrite E. change 1024%Q with (inject_Z 1024). rewrite <- Zle_Qle. lia.
Qed.

Lemma loop_in_range (t : tick) (g : globals) :
  0 <= analogRead t analogPin <= 1023 ->
  in_range g -> in_range (fst (loop t g)).
Proof.
  intros Hr Hg. unfold loop. destruct (elapsed (millis t) g); [|exact Hg].
  right. cbn [fst]. apply update_settles; [exact Hr|exact Hg].
Qed.

Lemma final_in_range (ts : list tick) :
  forall g, Forall (fun t => 0 <= analogRead t analogPin <= 1023) ts ->
            in_range g -> in_range (final ts g).
Proof.
  induction ts as [|t ts IH]; intros g Hts Hg; [exact Hg|].
  apply Forall_cons_iff in Hts as [Ht Hts]. cbn [final].
  apply IH; [exact Hts|]. now apply loop_in_range.
Qed.

(** *** Spacing of the sampling cycles *)

Lemma loop_not_elapsed (t : tick) (g : globals) :
  elapsed (millis t) g = false -> loop t g = (g, []).
Proof. intros H. unfold loop. now rewrite H. Qed.

Lemma loop_elapsed (t : tick) (g : globals) :
  elapsed (millis t) g = true ->
  previousMillis (fst (loop t g)) = millis t
  /\ snd (loop t g) = line (millis t) (convert (analogValue (fst (loop t g)))).
Proof. intros H. unfold loop. rewrite H. cbn. split; reflexivity. Qed.

Lemma loop_previousMillis (t : tick) (g : globals) :
  previousMillis (fst (loop t g))
  = if elapsed (millis t) g then millis t else previousMillis g.
Proof.
  destruct (elapsed (millis t) g) eqn:E.
  - apply (loop_elapsed t g E).
  - now rewrite loop_not_elapsed.
Qed.

(** The first fire is spaced from [previousMillis], and each fire from the
    one before it. *)
Lemma fired_at_chain (ts : list tick) :
  forall g, HdRel spaced (previousMillis g) (fired_at ts g)
            /\ Sorted spaced (fired_at ts g).
Proof.
  induction ts as [|t ts IH]; intros g; cbn [fired_at].
  - split; constructor.
  - destruct (elapsed (millis t) g) eqn:E.
    + destruct (loop_elapsed t g E) as [Hp Hout]. rewrite Hout. cbn [line].
      destruct (IH (fst (loop t g))) as [Hhd Hs]. rewrite Hp in Hhd.
      split.
      * constructor. unfold spaced. unfold elapsed in E. lia.
      * constructor; assumption.
    + rewrite (loop_not_elapsed t g E). cbn [fst snd]. apply IH.
Qed.

(** C2 as it is worded fails for two cycles that are not consecutive: a
    counter read at 100, 1500000000, 3000000000 and, once wrapped, at 110
    fires in all four passes, and 110 is only 10 after 100. *)
Lemma far_apart_fires_close_clock_values :
  let ts := [ Tick 100 (fun _ => 0); Tick 1500000000 (fun _ => 0);
              Tick 3000000000 (fun _ => 0); Tick 110 (fun _ => 0) ] in
  fired_at ts initial = [100; 1500000000; 3000000000; 110]
  /\ ulong_sub 110 100 = 10
  /\ ~ StronglySorted spaced (fired_at ts initial).
Proof.
  cbv zeta. split; [reflexivity|]. split; [reflexivity|].
  intros H. change (fired_at _ initial) with [100; 1500000000; 3000000000; 110] in H.
  apply StronglySorted_inv in H as [_ H].
  rewrite Forall_forall in H. specialize (H 110).
  assert (Hin : In 110 [1500000000; 3000000000; 110]) by (cbn; tauto).
  specialize (H Hin). unfold spaced in H. vm_compute in H. apply H. reflexivity.
Qed.

(** *** Spacing measured on a clock that never goes back

    [Ts] are the instants of the passes on an unbounded millisecond clock
    and [millis()] reads them modulo [2^32]. *)

Lemma elapsed_on_wrapped_clock (T0 T : Z) (t : tick) (g : globals) :
  millis t = T mod 2 ^ 32 ->
  previousMillis g = T0 mod 2 ^ 32 ->
  T0 <= T ->
  elapsed (millis t) g = true -> interval <= T - T0.
Proof.
  intros Ht Hg HT E. unfold elapsed, ulong_sub, ULONG_WIDTH in E.
  rewrite Ht, Hg, <- Zminus_mod in E.
  pose proof (Z.mod_le (T - T0) (2 ^ 32)). lia.
Qed.

Lemma fired_on_wrapped_clock (Ts : list Z) :
  forall (ts : list tick) (g : globals) (T0 : Z),
  Forall2 (fun T t => millis t = T mod 2 ^ 32) Ts ts ->
  previousMillis g = T0 mod 2 ^ 32 ->
  StronglySorted Z.le (T0 :: Ts) ->
  Forall (fun a => interval <= a - T0) (select (fired ts g) Ts)
  /\ StronglySorted (fun a b => interval <= b - a) (select (fired ts g) Ts).
Proof.
  induction Ts as [|T Ts IH]; intros ts g T0 Hts Hg Hs.
  - inversion Hts; subst. cbn. split; constructor.
  - inversion Hts as [|? t ? ts' Ht Hts']; subst. cbn [fired select].
    apply StronglySorted_inv in Hs as [Hs Hle].
    apply Forall_cons_iff in Hle as [HT Hle].
    destruct (elapsed (millis t) g) eqn:E.
    + pose proof (elapsed_on_wrapped_clock T0 T t g Ht Hg HT E) as Hgap.
      destruct (IH ts' (fst (loop t g)) T Hts') as [Hall Hss].
      { rewrite (proj1 (loop_elapsed t g E)). exact Ht. }
      { exact Hs. }
      split.
      * constructor; [exact Hgap|].
        eapply Forall_impl; [|exact Hall]. cbn. intros a Ha. lia.
      * constructor; [exact Hss | exact Hall].
    + rewrite (loop_not_elapsed t g E). cbn [fst].
      apply (IH ts' g T0 Hts' Hg).
      apply StronglySorted_inv in Hs as [Hs' _]. constructor; assumption.
Qed.

(** The printed timestamps are the clock values of the passes that fired. *)
Lemma fired_at_select (ts : list tick) :
  forall g, fired_at ts g = select (fired ts g) (map millis ts).
Proof.
  induction ts as [|t ts IH]; intros g; cbn [fired_at fired select map].
  - reflexivity.
  - destruct (elapsed (millis t) g) eqn:E.
    + rewrite (proj2 (loop_elapsed t g E)). cbn [line]. now rewrite IH.
    + rewrite (loop_not_elapsed t g E). cbn [fst snd]. apply IH.
Qed.

(** C2, amended: whatever clock values the passes see, two consecutive
    sampling cycles are at least [interval] apart in wrap-around difference;
    when the clock values are the readings, modulo [2^32], of instants [Ts]
    that never go back, any two sampling cycles are at least [interval]
    milliseconds apart, however often the reading wraps in between; and
    [previousMillis] changes exactly in the passes where the interval has
    elapsed. *)
Theorem sampling_cycles_spaced (ts : list tick) (g : globals) :
  Sorted spaced (fired_at ts g)
  /\ (forall (Ts : list Z) (T0 : Z),
        Forall2 (fun T t => millis t = T mod 2 ^ 32) Ts ts ->
        previousMillis g = T0 mod 2 ^ 32 ->
        StronglySorted Z.le (T0 :: Ts) ->
        StronglySorted (fun a b => interval <= b - a)
                       (select (fired ts g) Ts))
  /\ (forall t g', previousMillis (fst (loop t g'))
                   = if interval <=? ulong_sub (millis t) (previousMillis g')
                     then millis t else previousMillis g').
Proof.
  split; [apply fired_at_chain|]. split.
  - intros Ts T0 Hts Hg Hs. now apply (fired_on_wrapped_clock Ts ts g T0).
  - intros; apply loop_previousMillis.
Qed.

Lemma sampling_cycles_spaced_witness :
  (Forall2 (fun T t => millis t = T mod 2 ^ 32) [0; 20; 55; 60; 110] scenario
   /\ previousMillis initial = 0 mod 2 ^ 32
   /\ StronglySorted Z.le [0; 0; 20; 55; 60; 110])
  /\ StronglySorted (fun a b => interval <= b - a)
                    (select (fired scenario initial) [0; 20; 55; 60; 110]).
Proof.
  assert (H1 : Forall2 (fun T t => millis t = T mod 2 ^ 32)
                       [0; 20; 55; 60; 110] scenario)
    by (repeat constructor).
  assert (H2 : previousMillis initial = 0 mod 2 ^ 32) by reflexivity.
  assert (H3 : StronglySorted Z.le [0; 0; 20; 55; 60; 110])
    by (repeat constructor; lia).
  split; [split; [exact H1|split; [exact H2|exact H3]]|].
  exact (proj1 (proj2 (sampling_cycles_spaced scenario initial))
           [0; 20; 55; 60; 110] 0 H1 H2 H3).
Defined.

(** *** The voltage conversion *)

Lemma lt_trans (x y z : float) :
  lt x y = true -> lt y z = true -> lt x z = true.
Proof.
  unfold lt, SFltb, SFcompare.
  destruct x as [sx|sx| |sx mx ex], y as [sy|sy| |sy my ey],
           z as [sz|sz| |sz mz ez];
    try destruct sx; try destruct sy; try destruct sz;
    try discriminate; try reflexivity;
    change (Pos.compare_cont Eq ?a ?b) with (Pos.compare a b);
    repeat match goal with
    | |- context [Z.compare ?a ?b] => destruct (Z.compare_spec a b)
    | |- context [Pos.compare ?a ?b] => destruct (Pos.compare_spec a b)
    end; cbn; try discriminate; try reflexivity; try lia.
Qed.

Lemma convert_adc_exact (n : Z) :
  0 <= n <= 1023 ->
  is_finite (convert (of_int n)) = true
  /\ Qeq (to_Q (convert (of_int n))) (inject_Z n * 5 / 1024).
Proof.
  intros Hn.
  assert (H : all_from
                (fun n => is_finite (convert (of_int n)) &&
                          Qeq_bool (to_Q (convert (of_int n)))
                                   (inject_Z n * 5 / 1024))
                0 (Z.to_nat 1024) = true) by (vm_compute; reflexivity).
  pose proof (all_from_spec _ _ _ H n) as Hz.
  rewrite Z2Nat.id in Hz by lia.
  apply andb_prop in Hz as [Hf Hq]; [|lia].
  split; [exact Hf | now apply Qeq_bool_iff].
Qed.

Lemma convert_adc_step (n : Z) :
  0 <= n < 1023 ->
  lt (convert (of_int n)) (convert (of_int (n + 1))) = true.
Proof.
  intros Hn.
  assert (H : all_from
                (fun n => lt (convert (of_int n)) (convert (of_int (n + 1))))
                0 (Z.to_nat 1023) = true) by (vm_compute; reflexivity).
  apply (all_from_spec _ _ _ H n). rewrite Z2Nat.id by lia. lia.
Qed.

Lemma convert_adc_increasing (x y : Z) :
  0 <= x -> x < y -> y <= 1023 ->
  lt (convert (of_int x)) (convert (of_int y)) = true.
Proof.
  intros Hx Hxy Hy.
  replace y with (x + 1 + Z.of_nat (Z.to_nat (y - x - 1))) in * by lia.
  generalize dependent (Z.to_nat (y - x - 1)). intros k. clear y.
  induction k as [|k IH]; intros Hxy Hy.
  - rewrite Z.add_0_r. apply convert_adc_step. lia.
  - apply lt_trans with (convert (of_int (x + 1 + Z.of_nat k))).
    + apply IH; lia.
    + replace (x + 1 + Z.of_nat (S k)) with (x + 1 + Z.of_nat k + 1) by lia.
      apply convert_adc_step. lia.
Qed.

(** C9 as it is worded fails on smoothed values: after the samples 3, 6 the
    filter holds a value below the one it holds after the samples 2, 15, and
    both convert to the same voltage. *)
Lemma smoothed_values_convert_equal :
  let x := analogValue (snd (feed [3; 6] initial)) in
  let y := analogValue (snd (feed [2; 15] initial)) in
  lt x y = true
  /\ Qlt (to_Q x) (to_Q y)
  /\ convert x = convert y
  /\ lt (convert x) (convert y) = false.
Proof.
  cbv zeta. repeat split; vm_compute; reflexivity.
Qed.

(** The conversion to a voltage never inverts the order of two non-negative
    floats. *)
Lemma convert_monotone (x y : float) :
  valid_binary prec emax x = true -> valid_binary prec emax y = true ->
  le (of_int 0) x = true -> le x y = true ->
  le (convert x) (convert y) = true.
Proof.
  intros Vx Vy H0 Hle.
  pose proof (valid_nonneg_good x Vx H0) as Gx.
  assert (Gy : good y).
  { apply valid_nonneg_good; [assumption|].
    destruct x as [?|[]| |[] ? ?], y as [?|[]| |[] ? ?]; cbn in *;
      intuition congruence. }
  unfold convert. change (of_int 5) with (S754_finite false 10485760 (-21)).
  assert (Hc : 2 ^ 23 <= Zpos 10485760) by (vm_compute; discriminate).
  apply div_1024_mono.
  - now apply mul_good.
  - now apply mul_good.
  - now apply mul_mono.
Qed.

(** C9, amended: [convert] is [x * 5.0 / 1024.0] in binary32.  It preserves
    the order of non-negative floats in the weak sense, [x <= y] gives
    [convert x <= convert y].  On the ADC codes 0..1023 it is exact,
    [convert n = 5 n / 1024], hence linear, and strictly order-preserving. *)
Theorem convert_order :
  (forall v, convert v = div (mul v (of_int 5)) (of_int 1024))
  /\ (forall x y : float,
        valid_binary prec emax x = true -> valid_binary prec emax y = true ->
        le (of_int 0) x = true -> le x y = true ->
        le (convert x) (convert y) = true)
  /\ (forall n : Z, 0 <= n <= 1023 ->
        Qeq (to_Q (convert (of_int n))) (inject_Z n * 5 / 1024))
  /\ (forall a b : Z, 0 <= a -> a < b -> b <= 1023 ->
        lt (convert (of_int a)) (convert (of_int b)) = true
        /\ Qlt (to_Q (convert (of_int a))) (to_Q (convert (of_int b)))).
Proof.
  split; [reflexivity|]. split; [exact convert_monotone|].
  split; [intros n Hn; now apply convert_adc_exact|].
  intros a b Ha Hab Hb.
  destruct (convert_adc_exact a) as [_ Ea]; [lia|].
  destruct (convert_adc_exact b) as [_ Eb]; [lia|].
  split; [now apply convert_adc_increasing|].
  rewrite Ea, Eb. unfold Qdiv.
  apply Qmult_lt_compat_r; [reflexivity|].
  apply Qmult_lt_compat_r; [reflexivity|].
  rewrite <- Zlt_Qlt. exact Hab.
Qed.

Lemma convert_order_witness :
  (valid_binary prec emax (of_int 3) = true
   /\ valid_binary prec emax (of_decimal 33 10) = true
   /\ le (of_int 0) (of_int 3) = true
   /\ le (of_int 3) (of_decimal 33 10) = true
   /\ le (convert (of_int 3)) (convert (of_decimal 33 10)) = true)
  /\ (0 <= 510 <= 1023
      /\ Qeq (to_Q (convert (of_int 510))) (inject_Z 510 * 5 / 1024))
  /\ (0 <= 510 /\ 510 < 529 /\ 529 <= 1023
      /\ lt (convert (of_int 510)) (convert (of_int 529)) = true).
Proof.
  destruct convert_order as (_ & Hmono & Hexact & Hstrict).
  split; [|split].
  - assert (V1 : valid_binary prec emax (of_int 3) = true) by reflexivity.
    assert (V2 : valid_binary prec emax (of_decimal 33 10) = true)
      by reflexivity.
    assert (H0 : le (of_int 0) (of_int 3) = true) by reflexivity.
    assert (H1 : le (of_int 3) (of_decimal 33 10) = true) by reflexivity.
    split; [exact V1|]. split; [exact V2|]. split; [exact H0|].
    split; [exact H1|]. exact (Hmono _ _ V1 V2 H0 H1).
  - split; [lia|]. apply Hexact. lia.
  - split; [lia|]. split; [lia|]. split; [lia|].
    apply (Hstrict 510 529); lia.
Defined.

End SamplerProofs.

(** * Properties of the TEG driver *)

Module TEGProofs.
Import TEG_HeatingCooling.

Ltac run_M :=
  unfold forward, backward, stop, digitalWrite, analogWrite, Serial_println,
    delay, mbind, M_bind, mret, M_ret; cbn [pins serial_rx calls];
  rewrite <- ?app_assoc; cbn [app].

Lemma forward_run (t : TEG) (pwm : Z) (b : board) :
  forward t pwm b
  = (tt, {| pins := <[enable_pin t := Pwm pwm]>
                      (<[pin2 t := Digital LOW]>
                         (<[pin1 t := Digital HIGH]> (pins b)));
            serial_rx := serial_rx b;
            calls := calls b ++ [digitalWrite_call (pin1 t) HIGH;
                                 digitalWrite_call (pin2 t) LOW;
                                 analogWrite_call (enable_pin t) pwm] |}).
Proof. run_M. reflexivity. Qed.

Lemma backward_run (t : TEG) (pwm : Z) (b : board) :
  backward t pwm b
  = (tt, {| pins := <[enable_pin t := Pwm pwm]>
                      (<[pin2 t := Digital HIGH]>
                         (<[pin1 t := Digital LOW]> (pins b)));
            serial_rx := serial_rx b;
            calls := calls b ++ [digitalWrite_call (pin1 t) LOW;
                                 digitalWrite_call (pin2 t) HIGH;
                                 analogWrite_call (enable_pin t) pwm] |}).
Proof. run_M. reflexivity. Qed.

Lemma stop_run (t : TEG) (b : board) :
  stop t b
  = (tt, {| pins := <[enable_pin t := Pwm 0]>
                      (<[pin2 t := Digital LOW]>
                         (<[pin1 t := Digital LOW]> (pins b)));
            serial_rx := serial_rx b;
            calls := calls b ++ [digitalWrite_call (pin1 t) LOW;
                                 digitalWrite_call (pin2 t) LOW;
                                 analogWrite_call (enable_pin t) 0] |}).
Proof. run_M. reflexivity. Qed.

Lemma instances_wired : wired TEG_L /\ wired TEG_R.
Proof. unfold wired; cbn. repeat split; discriminate. Qed.

(** The pins of a wired actuator after three writes to them. *)
Lemma pins_after_writes (t : TEG) (ps : gmap Z pin_out) (a c : level) (p : Z) :
  wired t ->
  let ps' := <[enable_pin t := Pwm p]>
               (<[pin2 t := Digital c]> (<[pin1 t := Digital a]> ps)) in
  ps' !! pin1 t = Some (Digital a)
  /\ ps' !! pin2 t = Some (Digital c)
  /\ ps' !! enable_pin t = Some (Pwm p).
Proof.
  intros (H12 & He1 & He2). cbv zeta. repeat split.
  - rewrite lookup_insert_ne by done. rewrite lookup_insert_ne by done.
    apply lookup_insert_eq.
  - rewrite lookup_insert_ne by done. apply lookup_insert_eq.
  - apply lookup_insert_eq.
Qed.

(** What each operation leaves on the pins of a wired actuator. *)
Lemma wired_operations (t : TEG) (pwm : Z) (b : board) :
  wired t ->
  (forward_active t (exec (forward t pwm) b)
   /\ driven (exec (forward t pwm) b) (enable_pin t) (Pwm pwm))
  /\ (backward_active t (exec (backward t pwm) b)
      /\ driven (exec (backward t pwm) b) (enable_pin t) (Pwm pwm))
  /\ (stopped t (exec (stop t) b)
      /\ driven (exec (stop t) b) (enable_pin t) (Pwm 0)).
Proof.
  intros Hw. unfold exec, forward_active, backward_active, stopped, driven.
  rewrite forward_run, backward_run, stop_run. cbn [snd pins].
  pose proof (pins_after_writes t (pins b) HIGH LOW pwm Hw) as (? & ? & ?).
  pose proof (pins_after_writes t (pins b) LOW HIGH pwm Hw) as (? & ? & ?).
  pose proof (pins_after_writes t (pins b) LOW LOW 0 Hw) as (? & ? & ?).
  repeat split; assumption.
Qed.

(** The three states exclude each other and exclude both pins being
    active, on any board. *)
Lemma states_exclusive (t : TEG) (b : board) :
  (forward_active t b -> ~ backward_active t b /\ ~ stopped t b
                         /\ ~ both_active t b)
  /\ (backward_active t b -> ~ forward_active t b /\ ~ stopped t b
                             /\ ~ both_active t b)
  /\ (stopped t b -> ~ forward_active t b /\ ~ backward_active t b
                     /\ ~ both_active t b).
Proof.
  unfold forward_active, backward_active, stopped, both_active, driven.
  split; [|split]; intros [H1 H2]; (split; [|split]); intros [H3 H4];
    congruence.
Qed.

(** C7: after [forward], [backward] or [stop] on either of the two
    actuators, whatever the board was before, its direction pins are driven
    to the pair of that operation: (HIGH, LOW), (LOW, HIGH) or (LOW, LOW).
    They are never both HIGH, and at most one of forward-active,
    backward-active and stopped holds. *)
Theorem direction_pins_exclusive (t : TEG) (pwm : Z) (b : board) :
  t = TEG_L \/ t = TEG_R ->
  (forward_active t (exec (forward t pwm) b)
   /\ backward_active t (exec (backward t pwm) b)
   /\ stopped t (exec (stop t) b))
  /\ (~ both_active t (exec (forward t pwm) b)
      /\ ~ both_active t (exec (backward t pwm) b)
      /\ ~ both_active t (exec (stop t) b))
  /\ (forall b', ~ (forward_active t b' /\ backward_active t b')
                 /\ ~ (forward_active t b' /\ stopped t b')
                 /\ ~ (backward_active t b' /\ stopped t b')).
Proof.
  intros Ht.
  assert (Hw : wired t) by (destruct Ht as [-> | ->]; apply instances_wired).
  destruct (wired_operations t pwm b Hw) as ((Hf & _) & (Hb & _) & (Hs & _)).
  split; [auto|]. split.
  - split; [|split].
    + apply (proj1 (states_exclusive t _) Hf).
    + apply (proj1 (proj2 (states_exclusive t _)) Hb).
    + apply (proj2 (proj2 (states_exclusive t _)) Hs).
  - intros b'. destruct (states_exclusive t b') as (H1 & H2 & H3).
    split; [|split]; intros [Hx Hy].
    + destruct (H1 Hx) as (N & _); exact (N Hy).
    + destruct (H1 Hx) as (_ & N & _); exact (N Hy).
    + destruct (H2 Hx) as (_ & N & _); exact (N Hy).
Qed.

Lemma direction_pins_exclusive_witness :
  (TEG_R = TEG_L \/ TEG_R = TEG_R)
  /\ forward_active TEG_R (exec (forward TEG_R 135) (Board ∅ [] []))
  /\ ~ both_active TEG_R (exec (forward TEG_R 135) (Board ∅ [] [])).
Proof.
  assert (Ht : TEG_R = TEG_L \/ TEG_R = TEG_R) by (right; reflexivity).
  split; [exact Ht|].
  destruct (direction_pins_exclusive TEG_R 135 (Board ∅ [] []) Ht)
    as ((Hf & _) & (Hn & _) & _).
  split; assumption.
Defined.

(** The states are those between operations.  Inside [forward], when the
    actuator was driven backward, both pins are HIGH after the first write
    and until the second. *)
Lemma reversal_passes_through_both_active (t : TEG) (b : board) :
  wired t -> backward_active t b ->
  both_active t (exec (digitalWrite (pin1 t) HIGH) b).
Proof.
  intros (H12 & _) [_ H2]. unfold both_active, driven, exec in *. cbn.
  split; [apply lookup_insert_eq|].
  rewrite lookup_insert_ne by done. exact H2.
Qed.

(** C8: on a wired actuator, [forward(p)] or [backward(p)] followed by
    [stop()] leaves both direction pins LOW and the duty cycle of the enable
    pin at 0, for every power [p] and every board before. *)
Theorem stop_after_drive (t : TEG) (p : Z) (b : board) :
  wired t ->
  (stopped t (exec (forward t p;; stop t) b)
   /\ driven (exec (forward t p;; stop t) b) (enable_pin t) (Pwm 0))
  /\ (stopped t (exec (backward t p;; stop t) b)
      /\ driven (exec (backward t p;; stop t) b) (enable_pin t) (Pwm 0)).
Proof.
  intros Hw.
  assert (Hseq : forall (m : M unit), exec (m;; stop t) b = exec (stop t) (exec m b)).
  { intros m. unfold exec, mbind, M_bind. now destruct (m b) as [[] b']. }
  rewrite !Hseq.
  split; apply (wired_operations t 0 _ Hw).
Qed.

Lemma stop_after_drive_witness :
  wired TEG_L
  /\ stopped TEG_L (exec (forward TEG_L 255;; stop TEG_L) (Board ∅ [] []))
  /\ driven (exec (forward TEG_L 255;; stop TEG_L) (Board ∅ [] []))
            (enable_pin TEG_L) (Pwm 0).
Proof.
  assert (Hw : wired TEG_L) by (vm_compute; repeat split; lia).
  split; [exact Hw|].
  exact (proj1 (stop_after_drive TEG_L 255 (Board ∅ [] []) Hw)).
Defined.

(** *** The command loop *)

(** A pass of [loop] with a byte waiting: the byte is consumed and the chain
    of comparisons runs on it. *)
Lemma loop_on_byte (ps : gmap Z pin_out) (c : ascii) (rest : list ascii)
    (cs : list call) :
  loop (Board ps (c :: rest) cs)
  = ((let command := to_char (chr c) in
      if command =? chr "a" then forward TEG_L 255;; Serial_println "a"
      else if command =? chr "s" then
        stop TEG_L;; stop TEG_R;; Serial_println "s"
      else if command =? chr "d" then backward TEG_L 255;; Serial_println "d"
      else if command =? chr "w" then forward TEG_R 135;; Serial_println "w"
      else if command =? chr "x" then backward TEG_R 135;; Serial_println "x"
      else mret tt);; delay 100) (Board ps rest cs).
Proof. reflexivity. Qed.

Lemma loop_idle (ps : gmap Z pin_out) (cs : list call) :
  loop (Board ps [] cs) = (tt, Board ps [] (cs ++ [delay_call 100])).
Proof. reflexivity. Qed.

(** A byte is a number below 256, and [to_char] of it is the character code
    [k < 128] only when the byte is [k]. *)
Lemma chr_range (c : ascii) : 0 <= chr c < 256.
Proof.
  unfold chr. pose proof (N_ascii_bounded c). lia.
Qed.

Lemma to_char_is (c k : ascii) :
  chr k < 128 -> (to_char (chr c) =? chr k) = true -> c = k.
Proof.
  intros Hk H. apply Z.eqb_eq in H.
  pose proof (chr_range c) as Hc. pose proof (chr_range k) as Hk'.
  unfold to_char in H.
  assert (E : chr c = chr k).
  { destruct (Z_lt_ge_dec (chr c) 128).
    - rewrite Z.mod_small in H by lia. lia.
    - replace (chr c + 128) with ((chr c - 128) + 1 * 256) in H by lia.
      rewrite Z.mod_add in H by lia. rewrite Z.mod_small in H by lia. lia. }
  unfold chr in E. apply N2Z.inj in E.
  rewrite <- (ascii_N_embedding c), <- (ascii_N_embedding k). now rewrite E.
Qed.

Lemma new_calls_app {A} (m : M A) (b : board) (l : list call) :
  calls (exec m b) = calls b ++ l -> new_calls m b = l.
Proof. intros H. unfold new_calls. rewrite H. apply drop_app_length. Qed.

(** Computes the calls of a pass on a known byte. *)
Ltac pass_calls :=
  apply new_calls_app; unfold exec; rewrite loop_on_byte; cbv zeta;
  repeat match goal with
  | |- context [to_char ?x =? ?y] =>
      let v := eval vm_compute in (to_char x =? y) in
      change (to_char x =? y) with v
  end;
  cbv iota; unfold mbind, M_bind;
  repeat (first [rewrite forward_run | rewrite backward_run | rewrite stop_run]);
  unfold Serial_println, delay; cbn [calls snd pins serial_rx];
  rewrite <- ?app_assoc; reflexivity.

(** C5: in a pass whose consumed byte is ['a'], the loop does what
    [forward(255)] on the left actuator does, then echoes ["a"] with
    [println]; likewise ['d'] is left backward 255, ['w'] right forward 135,
    ['x'] right backward 135 and ['s'] stops both; each echoes its own
    character.  The calls made are exactly those of the one action (two for
    ['s']), the echo and the closing [delay(100)]. *)
Theorem dispatch_table (ps : gmap Z pin_out) (rest : list ascii)
    (cs : list call) :
  let b c := Board ps (c :: rest) cs in
  let b' := Board ps rest cs in
  (loop (b "a"%char)
   = (forward TEG_L 255;; Serial_println "a";; delay 100) b'
   /\ new_calls loop (b "a"%char)
      = [digitalWrite_call 3 HIGH; digitalWrite_call 4 LOW;
         analogWrite_call 2 255; Serial_println_call "a"; delay_call 100])
  /\ (loop (b "d"%char)
      = (backward TEG_L 255;; Serial_println "d";; delay 100) b'
      /\ new_calls loop (b "d"%char)
         = [digitalWrite_call 3 LOW; digitalWrite_call 4 HIGH;
            analogWrite_call 2 255; Serial_println_call "d"; delay_call 100])
  /\ (loop (b "w"%char)
      = (forward TEG_R 135;; Serial_println "w";; delay 100) b'
      /\ new_calls loop (b "w"%char)
         = [digitalWrite_call 5 HIGH; digitalWrite_call 6 LOW;
            analogWrite_call 7 135; Serial_println_call "w"; delay_call 100])
  /\ (loop (b "x"%char)
      = (backward TEG_R 135;; Serial_println "x";; delay 100) b'
      /\ new_calls loop (b "x"%char)
         = [digitalWrite_call 5 LOW; digitalWrite_call 6 HIGH;
            analogWrite_call 7 135; Serial_println_call "x"; delay_call 100])
  /\ (loop (b "s"%char)
      = (stop TEG_L;; stop TEG_R;; Serial_println "s";; delay 100) b'
      /\ new_calls loop (b "s"%char)
         = [digitalWrite_call 3 LOW; digitalWrite_call 4 LOW;
            analogWrite_call 2 0;
            digitalWrite_call 5 LOW; digitalWrite_call 6 LOW;
            analogWrite_call 7 0; Serial_println_call "s"; delay_call 100]).
Proof.
  cbv zeta.
  split; [|split; [|split; [|split]]]; (split; [reflexivity | pass_calls]).
Qed.

(** C6: a byte that is none of ['a'], ['d'], ['w'], ['x'], ['s'] is consumed
    and dropped: no pin is written, nothing is printed, the only call of the
    pass is the closing [delay(100)]. *)
Theorem unknown_byte_dropped (c : ascii) (ps : gmap Z pin_out)
    (rest : list ascii) (cs : list call) :
  ~ In c ["a"; "d"; "w"; "x"; "s"]%char ->
  loop (Board ps (c :: rest) cs)
  = (tt, Board ps rest (cs ++ [delay_call 100]))
  /\ new_calls loop (Board ps (c :: rest) cs) = [delay_call 100].
Proof.
  intros Hc.
  assert (E : loop (Board ps (c :: rest) cs)
              = (tt, Board ps rest (cs ++ [delay_call 100]))).
  { rewrite loop_on_byte. cbv zeta.
    repeat match goal with
    | |- context [to_char (chr c) =? chr ?k] =>
        let H := fresh "H" in
        destruct (to_char (chr c) =? chr k) eqn:H;
        [ exfalso; apply Hc; apply (to_char_is c k) in H;
          [ subst c; cbn; tauto | reflexivity ] | ]
    end.
    reflexivity. }
  split; [exact E|].
  apply new_calls_app. unfold exec. now rewrite E.
Qed.

Lemma unknown_byte_dropped_witness :
  ~ In "q"%char ["a"; "d"; "w"; "x"; "s"]%char
  /\ loop (Board ∅ ["q"%char] [])
     = (tt, Board ∅ [] ([] ++ [delay_call 100])).
Proof.
  assert (Hq : ~ In "q"%char ["a"; "d"; "w"; "x"; "s"]%char).
  { cbn. intros [H|[H|[H|[H|[H|[]]]]]]; discriminate H. }
  split; [exact Hq|].
  exact (proj1 (unknown_byte_dropped "q"%char ∅ [] [] Hq)).
Defined.

(** Writes to the pins of one actuator leave the pins of the other alone. *)
Lemma other_pins_kept (t t' : TEG) (ps : gmap Z pin_out) (a c : level) (p : Z) :
  (t = TEG_L /\ t' = TEG_R) \/ (t = TEG_R /\ t' = TEG_L) ->
  let ps' := <[enable_pin t := Pwm p]>
               (<[pin2 t := Digital c]> (<[pin1 t := Digital a]> ps)) in
  ps' !! pin1 t' = ps !! pin1 t' /\ ps' !! pin2 t' = ps !! pin2 t'.
Proof.
  intros [[-> ->]|[-> ->]]; cbv zeta; split;
    rewrite !lookup_insert_ne by discriminate; reflexivity.
Qed.

(** A pass of the command loop never leaves both direction pins of an
    actuator active, when they were not both active before. *)
Lemma loop_keeps_exclusive (b : board) :
  ~ both_active TEG_L b -> ~ both_active TEG_R b ->
  ~ both_active TEG_L (exec loop b) /\ ~ both_active TEG_R (exec loop b).
Proof.
  intros HL HR. destruct b as [ps rx cs]. destruct rx as [|c rest].
  - unfold exec. rewrite loop_idle. cbn [snd]. split; assumption.
  - unfold exec. rewrite loop_on_byte. cbv zeta.
    unfold both_active, driven in *. cbn [pins] in HL, HR.
    repeat match goal with
    | |- context [to_char (chr c) =? ?k] => destruct (to_char (chr c) =? k)
    end;
    unfold mbind, M_bind, mret, M_ret;
    repeat (first [rewrite forward_run | rewrite backward_run | rewrite stop_run]);
    unfold Serial_println, delay; cbn [snd pins serial_rx calls];
    cbn [TEG_L TEG_R TEG_new pin1 pin2 enable_pin ena enb in1 in2 in3 in4];
    split; intros [H1 H2];
    repeat (first [ rewrite lookup_insert_eq in H1
                  | rewrite lookup_insert_ne in H1 by discriminate ]);
    repeat (first [ rewrite lookup_insert_eq in H2
                  | rewrite lookup_insert_ne in H2 by discriminate ]);
    try discriminate; try (apply HL; split; assumption);
    try (apply HR; split; assumption).
Qed.
End TEGProofs.

(** * The order of rounded results

    Rounding to nearest is monotone in the number rounded, however the
    number is written; with it the sum and the product by a constant are
    monotone on the non-negative floats. *)

Module Float32Order.
Import Float32 Float32Facts.

Lemma same_eq (x y : float) : same x y = true -> x = y.
Proof.
  destruct x as [s|s| |s m e], y as [s'|s'| |s' m' e']; cbn; try discriminate;
    try reflexivity.
  - intros H. apply eqb_prop in H. now subst.
  - intros H. apply eqb_prop in H. now subst.
  - intros H. apply andb_prop in H as [H He]. apply andb_prop in H as [Hs Hm].
    apply eqb_prop in Hs. apply Pos.eqb_eq in Hm. apply Z.eqb_eq in He. now subst.
Qed.

Lemma dyadic_le_inv (m1 m2 e : Z) :
  (dyadic m1 e <= dyadic m2 e)%Q -> m1 <= m2.
Proof.
  unfold dyadic. intros H.
  apply Qmult_le_r in H; [|apply pow2_Q_pos]. now rewrite Zle_Qle.
Qed.

Lemma shift_scale (m e k : Z) :
  0 < m -> 0 <= k -> shift (m * 2 ^ k) (e - k) = shift m e + k.
Proof. intros Hm Hk. rewrite !shift_eq, Zdigits2_scale by lia. lia. Qed.

(** Rounding is monotone in the value, on any two exponents. *)
Lemma Rnd_mono_Q (m1 m2 e1 e2 : Z) :
  0 < m1 -> 0 < m2 -> 0 <= shift m1 e1 -> 0 <= shift m2 e2 ->
  (dyadic m1 e1 <= dyadic m2 e2)%Q ->
  le (Rnd m1 e1) (Rnd m2 e2) = true.
Proof.
  intros H1 H2 S1 S2 Hv.
  remember (Z.min e1 e2) as e eqn:Ee.
  remember (e1 - e) as k1 eqn:Ek1. remember (e2 - e) as k2 eqn:Ek2.
  assert (Hk1 : 0 <= k1) by lia. assert (Hk2 : 0 <= k2) by lia.
  rewrite <- (Rnd_scale m1 e1 k1), <- (Rnd_scale m2 e2 k2) by assumption.
  replace (e1 - k1) with e by lia. replace (e2 - k2) with e by lia.
  pose proof (pow2_pos k1 Hk1). pose proof (pow2_pos k2 Hk2).
  apply Rnd_mono; [nia| |].
  - apply (dyadic_le_inv _ _ e).
    assert (E1 : e = e1 - k1) by lia. assert (E2 : e = e2 - k2) by lia.
    rewrite E1 at 1. rewrite E2.
    now rewrite !dyadic_scale by assumption.
  - assert (E1 : e = e1 - k1) by lia. rewrite E1, shift_scale by lia. lia.
Qed.

Lemma rounds_to_good (q : Q) (x : float) :
  rounds_to q x -> good x /\ is_finite x = true.
Proof.
  intros [[_ [s ->]]|(m & e & Hm & Hs & Hd & -> & _)].
  - split; [exact I|reflexivity].
  - destruct (Rnd_value m e Hm Hs Hd) as (F & G & _). now split.
Qed.

Lemma rounds_to_mono (q1 q2 : Q) (x1 x2 : float) :
  rounds_to q1 x1 -> rounds_to q2 x2 -> (q1 <= q2)%Q -> le x1 x2 = true.
Proof.
  intros R1 R2 Hq.
  destruct R1 as [[E1 [s1 ->]]|(m1 & e1 & Hm1 & Hs1 & Hd1 & -> & E1)].
  - apply le_zero_good. apply (rounds_to_good _ _ R2).
  - destruct R2 as [[E2 [s2 ->]]|(m2 & e2 & Hm2 & Hs2 & Hd2 & -> & E2)].
    + pose proof (dyadic_pos m1 e1 Hm1). exfalso. rewrite E1 in H. lra.
    + apply Rnd_mono_Q; try assumption. now rewrite E1, E2.
Qed.

(** A representable number rounds to itself. *)
Lemma Rnd_self (m : positive) (e : Z) :
  canon m e -> e <= 104 -> Rnd (Zpos m) e = S754_finite false m e.
Proof.
  intros (D & L & N) He.
  assert (Hs : shift (Zpos m) e = 0) by (rewrite shift_eq; lia).
  rewrite Rnd_spec by lia. rewrite Hs, rnd_0, Z.add_0_r.
  pose proof (Zdigits2_bounds (Zpos m) ltac:(lia)) as [_ Hhi].
  assert (2 ^ Zdigits2 (Zpos m) <= 2 ^ 24) by (apply Z.pow_le_mono_r; lia).
  rewrite finish_small by lia.
  destruct (Z.leb_spec e 104); [reflexivity|lia].
Qed.

Lemma good_finite_bounds (m : positive) (e : Z) :
  canon m e -> (dyadic (Zpos m) e < 2 ^ 127)%Q ->
  Zdigits2 (Zpos m) + e <= 127 /\ e <= 104.
Proof.
  intros (D & L & N) Hv. apply digits_of_value in Hv; [|lia].
  split; [exact Hv|]. destruct (Z.eq_dec e (-149)); lia.
Qed.

Lemma self_rounds (x : float) :
  good x -> is_finite x = true -> (to_Q x < 2 ^ 127)%Q -> rounds_to (to_Q x) x.
Proof.
  intros G F Hv. destruct x as [s|s| |s m e]; try discriminate.
  - left. split; [reflexivity|now exists s].
  - destruct G as [-> C]. rewrite to_Q_finite in Hv.
    destruct (good_finite_bounds m e C Hv) as [Hd He].
    right. exists (Zpos m), e. split; [lia|].
    split; [destruct C as (D & L & N); rewrite shift_eq; lia|].
    split; [exact Hd|]. split; [now rewrite Rnd_self|]. now rewrite to_Q_finite.
Qed.

(** The order of the non-negative floats is the order of their values. *)
Lemma le_to_Q (x y : float) :
  good x -> good y -> is_finite x = true -> is_finite y = true ->
  le x y = true -> (to_Q x <= to_Q y)%Q.
Proof.
  intros Gx Gy Fx Fy Hle.
  destruct x as [sx|sx| |sx mx ex]; try discriminate.
  - apply (good_nonneg y Gy).
  - destruct Gx as [-> (D1 & L1 & N1)].
    destruct y as [sy|sy| |sy my ey]; try discriminate.
    destruct Gy as [-> (D2 & L2 & N2)].
    rewrite !to_Q_finite. apply SFleb_lex_inv in Hle.
    destruct Hle as [Hlt|[-> Hm]]; [|now apply dyadic_le].
    remember (ey - ex) as k eqn:Ek. assert (Hk : 0 < k) by lia.
    rewrite <- (dyadic_scale (Zpos my) ey k) by lia.
    replace (ey - k) with ex by lia. apply dyadic_le.
    pose proof (Zdigits2_bounds (Zpos mx) ltac:(lia)) as [_ H1].
    pose proof (Zdigits2_bounds (Zpos my) ltac:(lia)) as [H2 _].
    rewrite N2 in H2 by lia.
    assert (2 ^ Zdigits2 (Zpos mx) <= 2 ^ 24) by (apply Z.pow_le_mono_r; lia).
    assert (2 ^ 1 <= 2 ^ k) by (apply Z.pow_le_mono_r; lia).
    change (2 ^ 1) with 2 in *. change (2 ^ (24 - 1)) with 8388608 in *.
    change (2 ^ 24) with 16777216 in *. nia.
Qed.

Lemma Q_to_le (x y : float) :
  good x -> good y -> is_finite x = true -> is_finite y = true ->
  (to_Q x < 2 ^ 127)%Q -> (to_Q y < 2 ^ 127)%Q ->
  (to_Q x <= to_Q y)%Q -> le x y = true.
Proof.
  intros Gx Gy Fx Fy Hx Hy H.
  apply (rounds_to_mono (to_Q x) (to_Q y)); [now apply self_rounds..|exact H].
Qed.

Lemma le_finite (x y : float) :
  good x -> le x y = true -> is_finite y = true -> is_finite x = true.
Proof.
  destruct x as [s|s| |s m e]; try reflexivity; cbn [good]; try contradiction.
  intros ->. destruct y as [s'|s'| |s' m' e']; try destruct s'; discriminate.
Qed.

(** The product by a normal constant and the sum are correctly rounded. *)
Lemma mul_rounds (mc : positive) (ec : Z) (x : float) :
  2 ^ 23 <= Zpos mc -> good x -> is_finite x = true ->
  (dyadic (Zpos mc) ec * to_Q x < 2 ^ 127)%Q ->
  rounds_to (dyadic (Zpos mc) ec * to_Q x) (mul (S754_finite false mc ec) x).
Proof.
  intros Hc G F Hv. destruct x as [s|s| |s m e]; try discriminate.
  - left. split; [cbn; ring|]. now exists (xorb false s).
  - destruct G as [-> C]. rewrite mul_finite.
    assert (Ev : (dyadic (Zpos mc * Zpos m) (ec + e)
                  == dyadic (Zpos mc) ec * to_Q (S754_finite false m e))%Q)
      by (now rewrite to_Q_finite, dyadic_mul).
    rewrite <- Ev in Hv.
    assert (Hp : 0 < Zpos mc * Zpos m) by nia.
    right. exists (Zpos mc * Zpos m), (ec + e).
    split; [exact Hp|].
    split; [rewrite Z.mul_comm; now apply shift_mul_normal|].
    split; [now apply digits_of_value|]. split; [reflexivity|exact Ev].
Qed.

Lemma add_rounds (a b : float) :
  good a -> good b -> is_finite a = true -> is_finite b = true ->
  (to_Q a + to_Q b < 2 ^ 127)%Q ->
  rounds_to (to_Q a + to_Q b) (add a b).
Proof.
  intros Ga Gb Fa Fb Hv.
  pose proof (good_nonneg a Ga) as Na. pose proof (good_nonneg b Gb) as Nb.
  destruct a as [sa|sa| |sa ma ea]; try discriminate;
    destruct b as [sb|sb| |sb mb eb]; try discriminate.
  - left. split; [cbn; ring|]. destruct sa, sb; cbn; eauto.
  - change (add (S754_zero sa) (S754_finite sb mb eb)) with (S754_finite sb mb eb).
    assert (E : (to_Q (S754_zero sa) + to_Q (S754_finite sb mb eb)
                 == to_Q (S754_finite sb mb eb))%Q) by (cbn [to_Q]; ring).
    assert (R : rounds_to (to_Q (S754_finite sb mb eb)) (S754_finite sb mb eb)).
    { apply self_rounds; [assumption|reflexivity|]. now rewrite <- E. }
    destruct R as [[E0 S0]|(m & e & ? & ? & ? & ? & Ev)]; [left|right].
    + split; [now rewrite E|exact S0].
    + exists m, e. repeat split; try assumption. now rewrite E.
  - change (add (S754_finite sa ma ea) (S754_zero sb)) with (S754_finite sa ma ea).
    assert (E : (to_Q (S754_finite sa ma ea) + to_Q (S754_zero sb)
                 == to_Q (S754_finite sa ma ea))%Q) by (cbn [to_Q]; ring).
    assert (R : rounds_to (to_Q (S754_finite sa ma ea)) (S754_finite sa ma ea)).
    { apply self_rounds; [assumption|reflexivity|]. now rewrite <- E. }
    destruct R as [[E0 S0]|(m & e & ? & ? & ? & ? & Ev)]; [left|right].
    + split; [now rewrite E|exact S0].
    + exists m, e. repeat split; try assumption. now rewrite E.
  - cbn [good] in Ga, Gb. destruct Ga as [-> Ca], Gb as [-> Cb].
    unfold add, SFadd. cbn [cond_Zopp].
    set (ez := Z.min ea eb).
    destruct (shl_align_spec ma ea ez) as (za & Ea & Eza).
    destruct (shl_align_spec mb eb ez) as (zb & Eb & Ezb).
    rewrite Ea, Eb. cbn [fst].
    replace (Z.min ea ez) with ez in * by (unfold ez; lia).
    replace (Z.min eb ez) with ez in * by (unfold ez; lia).
    change (Zpos za + Zpos zb) with (Zpos (za + zb)). cbn [binary_normalize].
    destruct (binary_round_Rnd (za + zb) ez) as (m' & e' & Hm' & Hs' & -> & Ev).
    assert (Esum : (dyadic m' e' == to_Q (S754_finite false ma ea)
                                   + to_Q (S754_finite false mb eb))%Q).
    { rewrite Ev, !to_Q_finite, Pos2Z.inj_add, dyadic_add, Eza, Ezb.
      replace ez with (ea - (ea - ez)) at 2 by lia.
      replace ez with (eb - (eb - ez)) at 4 by lia.
      rewrite !dyadic_scale by (unfold ez; lia). reflexivity. }
    rewrite <- Esum in Hv.
    right. exists m', e'. repeat split; try assumption.
    now apply digits_of_value.
Qed.

End Float32Order.

(** * The sampler over many passes *)

Module SamplerBehaviour.
Import Float32 Float32Facts Float32Order AnalogSampler SamplerProofs.

(** *** The filter stays between the samples *)

Lemma alpha_bits : alpha = S754_finite false 15099494 (-24).
Proof. reflexivity. Qed.

Lemma beta_bits : sub (of_int 1) alpha = S754_finite false 13421776 (-27).
Proof. reflexivity. Qed.

Lemma gt_zero_pos (x : float) :
  good x -> is_finite x = true -> (gt x (of_int 0) = true <-> (0 < to_Q x)%Q).
Proof.
  intros G F. change (of_int 0) with (S754_zero false).
  destruct x as [s|s| |s m e]; try discriminate.
  - cbn. split; [discriminate|]. intros H. exfalso. lra.
  - destruct G as [-> C]. split; intros _; [|reflexivity].
    rewrite to_Q_finite. apply dyadic_pos. lia.
Qed.

Lemma within_good (lo hi : Z) (h : float) :
  0 <= lo -> within lo hi h -> good h.
Proof.
  intros Hlo (V & F & L & _). destruct h as [s|s| |s m e]; try discriminate.
  - exact I.
  - destruct s.
    + exfalso. cbn [to_Q] in L.
      assert (H0 : (0 <= inject_Z lo)%Q)
        by (change 0%Q with (inject_Z 0); rewrite <- Zle_Qle; lia).
      assert (H1 : (0 < to_Q (S754_finite false m e))%Q)
        by (rewrite to_Q_finite; apply dyadic_pos; lia).
      cbn [to_Q] in H1. lra.
    + split; [reflexivity|]. now apply (valid_canon false).
Qed.

(** The smoothing expression of line 47 is monotone in the history and in
    the sample. *)
Lemma smooth_mono (h h' : float) (r r' : Z) :
  good h -> good h' -> is_finite h = true -> is_finite h' = true ->
  (to_Q h <= to_Q h')%Q -> (to_Q h' <= 1024)%Q ->
  0 <= r -> r <= r' -> r' <= 1023 ->
  le (add (mul alpha h) (mul (sub (of_int 1) alpha) (of_int r)))
     (add (mul alpha h') (mul (sub (of_int 1) alpha) (of_int r'))) = true.
Proof.
  intros G G' F F' Hh Hh' Hr Hrr Hr'.
  pose proof (good_nonneg h G) as Nh.
  destruct (of_int_adc r ltac:(lia)) as (Gr & Fr & Er).
  destruct (of_int_adc r' ltac:(lia)) as (Gr' & Fr' & Er').
  assert (Hq : (0 <= inject_Z r <= inject_Z r')%Q /\ (inject_Z r' <= 1023)%Q).
  { change 0%Q with (inject_Z 0). change 1023%Q with (inject_Z 1023).
    rewrite <- !Zle_Qle. lia. }
  destruct Hq as [[Hq0 Hq1] Hq2].
  rewrite beta_bits, alpha_bits.
  assert (Eal : (dyadic 15099494 (-24) == 15099494 # 16777216)%Q) by reflexivity.
  assert (Ebe : (dyadic 13421776 (-27) == 13421776 # 134217728)%Q) by reflexivity.
  assert (Nal : 2 ^ 23 <= Zpos 15099494) by (vm_compute; discriminate).
  assert (Nbe : 2 ^ 23 <= Zpos 13421776) by (vm_compute; discriminate).
  assert (Ra : rounds_to (dyadic 15099494 (-24) * to_Q h)
                 (mul (S754_finite false 15099494 (-24)) h)).
  { apply mul_rounds; try assumption. apply below_2_127. rewrite Eal. lra. }
  assert (Ra' : rounds_to (dyadic 15099494 (-24) * to_Q h')
                  (mul (S754_finite false 15099494 (-24)) h')).
  { apply mul_rounds; try assumption. apply below_2_127. rewrite Eal. lra. }
  assert (Rb : rounds_to (dyadic 13421776 (-27) * to_Q (of_int r))
                 (mul (S754_finite false 13421776 (-27)) (of_int r))).
  { apply mul_rounds; try assumption. apply below_2_127. rewrite Ebe, Er. lra. }
  assert (Rb' : rounds_to (dyadic 13421776 (-27) * to_Q (of_int r'))
                  (mul (S754_finite false 13421776 (-27)) (of_int r'))).
  { apply mul_rounds; try assumption. apply below_2_127. rewrite Ebe, Er'. lra. }
  set (a := mul (S754_finite false 15099494 (-24)) h) in *.
  set (a' := mul (S754_finite false 15099494 (-24)) h') in *.
  set (b := mul (S754_finite false 13421776 (-27)) (of_int r)) in *.
  set (b' := mul (S754_finite false 13421776 (-27)) (of_int r')) in *.
  destruct (rounds_to_good _ _ Ra) as [Ga Fa].
  destruct (rounds_to_good _ _ Ra') as [Ga' Fa'].
  destruct (rounds_to_good _ _ Rb) as [Gb Fb].
  destruct (rounds_to_good _ _ Rb') as [Gb' Fb'].
  assert (Laa : le a a' = true).
  { apply (rounds_to_mono _ _ _ _ Ra Ra'). rewrite Eal. nra. }
  assert (Lbb : le b b' = true).
  { apply (rounds_to_mono _ _ _ _ Rb Rb'). rewrite Ebe, Er, Er'. nra. }
  apply le_to_Q in Laa; try assumption. apply le_to_Q in Lbb; try assumption.
  assert (Ba' : (to_Q a' <= 1024)%Q).
  { destruct (mul_err (S754_finite false 15099494 (-24)) h')
      as (_ & _ & B); try assumption.
    - split; [reflexivity|now apply (valid_canon false)].
    - reflexivity.
    - exists 15099494%positive, (-24). split; [left; reflexivity|exact Nal].
    - apply below_2_127. rewrite to_Q_finite, Eal. lra.
    - rewrite to_Q_finite, Eal in B. fold a' in B. unfold u32, eta32 in B. lra. }
  assert (Bb' : (to_Q b' <= 1024)%Q).
  { destruct (mul_err (S754_finite false 13421776 (-27)) (of_int r'))
      as (_ & _ & B); try assumption.
    - split; [reflexivity|now apply (valid_canon false)].
    - reflexivity.
    - exists 13421776%positive, (-27). split; [left; reflexivity|exact Nbe].
    - apply below_2_127. rewrite to_Q_finite, Ebe, Er'. lra.
    - rewrite to_Q_finite, Ebe, Er' in B. fold b' in B.
      unfold u32, eta32 in B. lra. }
  pose proof (good_nonneg a Ga). pose proof (good_nonneg b Gb).
  apply (rounds_to_mono (to_Q a + to_Q b) (to_Q a' + to_Q b')).
  - apply add_rounds; try assumption. apply below_2_127. lra.
  - apply add_rounds; try assumption. apply below_2_127. lra.
  - lra.
Qed.

(** Smoothing an ADC code with itself gives the code back, exactly. *)
Lemma smooth_fixed (n : Z) :
  1 <= n <= 1023 ->
  add (mul alpha (of_int n)) (mul (sub (of_int 1) alpha) (of_int n)) = of_int n.
Proof.
  intros Hn.
  assert (H : all_from
                (fun n => same (add (mul alpha (of_int n))
                                    (mul (sub (of_int 1) alpha) (of_int n)))
                               (of_int n))
                1 (Z.to_nat 1023) = true) by (vm_compute; reflexivity).
  apply same_eq. apply (all_from_spec _ _ _ H n). rewrite Z2Nat.id by lia. lia.
Qed.

Lemma of_int_within (lo hi r : Z) :
  0 <= lo -> lo <= r <= hi -> hi <= 1023 -> within lo hi (of_int r).
Proof.
  intros Hlo Hr Hhi. destruct (of_int_adc r ltac:(lia)) as (G & F & E).
  split; [|split; [exact F|]].
  - apply good_valid; [assumption|assumption|]. rewrite E.
    change 4096%Q with (inject_Z 4096). rewrite <- Zle_Qle. lia.
  - rewrite E, <- !Zle_Qle. lia.
Qed.

Lemma within_1023 (lo hi : Z) (h : float) :
  hi <= 1023 -> within lo hi h -> (to_Q h <= 1023)%Q.
Proof.
  intros Hhi (_ & _ & _ & H). eapply Qle_trans; [exact H|].
  change 1023%Q with (inject_Z 1023). now rewrite <- Zle_Qle.
Qed.

(** One call of the filter keeps its state between [lo] and [hi] when the
    sample is between them. *)
Lemma update_within (lo hi r : Z) (g : globals) :
  0 <= lo -> lo <= r <= hi -> hi <= 1023 ->
  last_val g = of_int (-1) \/ within lo hi (last_val g) ->
  within lo hi (last_val (update r g)).
Proof.
  intros Hlo Hr Hhi Hg.
  destruct (gt (last_val g) (of_int 0)) eqn:P.
  2:{ rewrite (update_bootstrap r g P). cbn [last_val]. now apply of_int_within. }
  destruct Hg as [Hs|Hw]; [rewrite Hs in P; discriminate|].
  pose proof (within_good lo hi _ Hlo Hw) as Gh.
  pose proof (within_1023 lo hi _ Hhi Hw) as Bh.
  destruct Hw as (Vh & Fh & Lh & Uh).
  assert (Hpos : (0 < to_Q (last_val g))%Q) by (now apply gt_zero_pos).
  assert (H1 : 1 <= hi).
  { assert (H : (0 < inject_Z hi)%Q) by lra. change 0%Q with (inject_Z 0) in H.
    rewrite <- Zlt_Qlt in H. lia. }
  rewrite update_stores_result, update_smooths by assumption.
  destruct (smooth_err (last_val g) r Vh Fh P ltac:(lra) ltac:(lia))
    as ((Vs & Fs & Ps & Bs) & _).
  set (s := add (mul alpha (last_val g))
                (mul (sub (of_int 1) alpha) (of_int r))) in *.
  assert (Gs : good s) by (now apply valid_nonneg_good).
  split; [exact Vs|]. split; [exact Fs|]. split.
  - destruct (Z.eq_dec lo 0) as [->|Hne]; [apply (good_nonneg s Gs)|].
    destruct (of_int_adc lo ltac:(lia)) as (Gl & Fl & El).
    rewrite <- El. apply le_to_Q; try assumption.
    rewrite <- (smooth_fixed lo) by lia. unfold s.
    apply smooth_mono; try assumption; try lia.
    + now rewrite El.
    + lra.
  - destruct (of_int_adc hi ltac:(lia)) as (Gu & Fu & Eu).
    rewrite <- Eu. apply le_to_Q; try assumption.
    rewrite <- (smooth_fixed hi) by lia. unfold s.
    apply smooth_mono; try assumption; try lia.
    + now rewrite Eu.
    + rewrite Eu. change 1024%Q with (inject_Z 1024). rewrite <- Zle_Qle. lia.
Qed.

(** The voltage of a value between two codes is between their voltages. *)
Lemma convert_within (lo hi : Z) (x : float) :
  0 <= lo -> hi <= 1023 -> within lo hi x ->
  is_finite (convert x) = true
  /\ (inject_Z lo * 5 / 1024 <= to_Q (convert x) <= inject_Z hi * 5 / 1024)%Q.
Proof.
  intros Hlo Hhi Hw.
  pose proof (within_good lo hi x Hlo Hw) as Gx.
  pose proof (within_1023 lo hi x Hhi Hw) as Bx.
  destruct Hw as (Vx & Fx & Lx & Ux).
  assert (Hlohi : lo <= hi).
  { assert (H : (inject_Z lo <= inject_Z hi)%Q) by lra. now rewrite Zle_Qle. }
  destruct (of_int_adc lo ltac:(lia)) as (Gl & Fl & El).
  destruct (of_int_adc hi ltac:(lia)) as (Gu & Fu & Eu).
  assert (Bl : (to_Q (of_int lo) <= 4096)%Q).
  { rewrite El. change 4096%Q with (inject_Z 4096). rewrite <- Zle_Qle. lia. }
  assert (Bu : (to_Q (of_int hi) <= 4096)%Q).
  { rewrite Eu. change 4096%Q with (inject_Z 4096). rewrite <- Zle_Qle. lia. }
  assert (Llx : le (of_int lo) x = true).
  { apply Q_to_le; try assumption; try (apply below_2_127); lra. }
  assert (Lxu : le x (of_int hi) = true).
  { apply Q_to_le; try assumption; try (apply below_2_127); lra. }
  assert (C1 : le (convert (of_int lo)) (convert x) = true).
  { apply convert_monotone; try assumption.
    - now apply good_valid.
    - change (of_int 0) with (S754_zero false). now apply le_zero_good. }
  assert (C2 : le (convert x) (convert (of_int hi)) = true).
  { apply convert_monotone; try assumption.
    - now apply good_valid.
    - change (of_int 0) with (S754_zero false). now apply le_zero_good. }
  assert (Gc : forall z, good z -> good (convert z)).
  { intros z Gz. unfold convert. apply div_1024_good.
    change (of_int 5) with (S754_finite false 10485760 (-21)).
    apply mul_good; [vm_compute; discriminate|exact Gz]. }
  destruct (convert_adc_exact lo ltac:(lia)) as [Fcl Ecl].
  destruct (convert_adc_exact hi ltac:(lia)) as [Fcu Ecu].
  assert (Fc : is_finite (convert x) = true)
    by (apply (le_finite _ _ (Gc x Gx) C2 Fcu)).
  split; [exact Fc|]. split.
  - rewrite <- Ecl. apply le_to_Q; auto.
  - rewrite <- Ecu. apply le_to_Q; auto.
Qed.

Lemma voltages_app (a b : list serial_out) :
  voltages (a ++ b) = voltages a ++ voltages b.
Proof.
  induction a as [|[n|s|v] a IH]; cbn; [reflexivity|assumption|assumption|].
  now rewrite IH.
Qed.

Lemma loop_within (lo hi : Z) (t : tick) (g : globals) :
  0 <= lo -> hi <= 1023 ->
  lo <= analogRead t analogPin <= hi ->
  last_val g = of_int (-1) \/ within lo hi (last_val g) ->
  (last_val (fst (loop t g)) = of_int (-1)
   \/ within lo hi (last_val (fst (loop t g))))
  /\ Forall (fun v => is_finite v = true
                      /\ (inject_Z lo * 5 / 1024 <= to_Q v
                          <= inject_Z hi * 5 / 1024)%Q)
            (voltages (snd (loop t g))).
Proof.
  intros Hlo Hhi Hr Hg. unfold loop.
  destruct (elapsed (millis t) g); cbn [fst snd]; [|split; [exact Hg|constructor]].
  set (g1 := {| analogValue := analogValue g; previousMillis := millis t;
                last_val := last_val g |}).
  assert (Hw : within lo hi (last_val (update (analogRead t analogPin) g1)))
    by (apply update_within; assumption).
  split; [right; exact Hw|].
  cbn [line voltages]. constructor; [|constructor].
  rewrite <- update_stores_result. now apply convert_within.
Qed.

(** X1: when every reading of the ADC lies between two codes [lo] and [hi]
    of 0..1023, the value the filter holds never leaves [lo, hi] once a
    sample has been taken (before that it is the sentinel), and it is a
    finite number; every voltage printed is finite and lies between
    [5 lo / 1024] and [5 hi / 1024].  With [lo = 0] and [hi = 1023] the
    printed voltage is between 0 and 4.9951171875; with [lo = hi] a
    constant reading is printed exactly. *)
Theorem filter_stays_within_samples (lo hi : Z) (ts : list tick) (g : globals) :
  0 <= lo -> hi <= 1023 ->
  Forall (fun t => lo <= analogRead t analogPin <= hi) ts ->
  last_val g = of_int (-1) \/ within lo hi (last_val g) ->
  (last_val (final ts g) = of_int (-1) \/ within lo hi (last_val (final ts g)))
  /\ Forall (fun v => is_finite v = true
                      /\ (inject_Z lo * 5 / 1024 <= to_Q v
                          <= inject_Z hi * 5 / 1024)%Q)
            (voltages (List.concat (run ts g))).
Proof.
  intros Hlo Hhi. revert g.
  induction ts as [|t ts IH]; intros g Hts Hg; cbn [final run List.concat].
  - split; [exact Hg|constructor].
  - apply Forall_cons_iff in Hts as [Ht Hts].
    destruct (loop_within lo hi t g Hlo Hhi Ht Hg) as [Hg' Hv].
    destruct (IH (fst (loop t g)) Hts Hg') as [Hf Hvs].
    split; [exact Hf|]. rewrite voltages_app. apply Forall_app. now split.
Qed.

Lemma filter_stays_within_samples_witness :
  (0 <= 500 /\ 700 <= 1023
   /\ Forall (fun t => 500 <= analogRead t analogPin <= 700) scenario
   /\ (last_val initial = of_int (-1) \/ within 500 700 (last_val initial)))
  /\ (last_val (final scenario initial) = of_int (-1)
      \/ within 500 700 (last_val (final scenario initial)))
  /\ Forall (fun v => is_finite v = true
                      /\ (inject_Z 500 * 5 / 1024 <= to_Q v
                          <= inject_Z 700 * 5 / 1024)%Q)
            (voltages (List.concat (run scenario initial))).
Proof.
  assert (H1 : 0 <= 500) by lia. assert (H2 : 700 <= 1023) by lia.
  assert (H3 : Forall (fun t => 500 <= analogRead t analogPin <= 700) scenario)
    by (repeat constructor; cbn; lia).
  assert (H4 : last_val initial = of_int (-1)
               \/ within 500 700 (last_val initial))
    by (left; reflexivity).
  split; [repeat split; assumption|].
  exact (filter_stays_within_samples 500 700 scenario initial H1 H2 H3 H4).
Defined.

(** *** The smoothing step and its convergence *)

(** X2: in a pass that samples while the filter holds a positive value [h],
    the new value is [0.9 h + 0.1 r] within [2^-12], where [r] is the
    reading; it is stored in [last_val] and its voltage is what the pass
    prints, after the timestamp and the comma. *)
Theorem smoothing_step_accuracy (t : tick) (g : globals) :
  elapsed (millis t) g = true ->
  settled (last_val g) -> gt (last_val g) (of_int 0) = true ->
  0 <= analogRead t analogPin <= 1023 ->
  let g' := fst (loop t g) in
  (Qabs (to_Q (last_val g')
         - ((9 # 10) * to_Q (last_val g)
            + (1 # 10) * inject_Z (analogRead t analogPin)))
   <= 1 # 4096)%Q
  /\ settled (last_val g')
  /\ snd (loop t g) = line (millis t) (convert (last_val g')).
Proof.
  intros E Hs Hp Hr. cbv zeta. unfold loop. rewrite E. cbn [fst snd].
  set (g1 := {| analogValue := analogValue g; previousMillis := millis t;
                last_val := last_val g |}).
  destruct (update_within_tolerance (analogRead t analogPin) g1 Hs Hp Hr)
    as [Hs' Herr].
  rewrite update_stores_result. split; [exact Herr|].
  split; [rewrite <- update_stores_result; exact Hs'|reflexivity].
Qed.

Lemma smoothing_step_accuracy_witness :
  (elapsed (millis (Tick 110 (fun _ => 700%Z)))
           (Globals (of_int 600) 55 (of_int 600)) = true
   /\ settled (last_val (Globals (of_int 600) 55 (of_int 600)))
   /\ gt (last_val (Globals (of_int 600) 55 (of_int 600))) (of_int 0) = true
   /\ 0 <= analogRead (Tick 110 (fun _ => 700%Z)) analogPin <= 1023)
  /\ (Qabs (to_Q (last_val (fst (loop (Tick 110 (fun _ => 700%Z))
                                      (Globals (of_int 600) 55 (of_int 600)))))
            - ((9 # 10) * to_Q (last_val (Globals (of_int 600) 55 (of_int 600)))
               + (1 # 10) * inject_Z (analogRead (Tick 110 (fun _ => 700%Z))
                                                 analogPin)))
      <= 1 # 4096)%Q.
Proof.
  assert (H1 : elapsed (millis (Tick 110 (fun _ => 700%Z)))
                       (Globals (of_int 600) 55 (of_int 600)) = true)
    by reflexivity.
  assert (H2 : settled (last_val (Globals (of_int 600) 55 (of_int 600)))).
  { split; [reflexivity|]. split; [reflexivity|]. split; [reflexivity|].
    apply Qle_bool_iff. vm_compute. reflexivity. }
  assert (H3 : gt (last_val (Globals (of_int 600) 55 (of_int 600)))
                  (of_int 0) = true) by reflexivity.
  assert (H4 : 0 <= analogRead (Tick 110 (fun _ => 700%Z)) analogPin <= 1023)
    by (cbn; lia).
  split; [split; [exact H1|split; [exact H2|split; [exact H3|exact H4]]]|].
  exact (proj1 (smoothing_step_accuracy (Tick 110 (fun _ => 700%Z))
                  (Globals (of_int 600) 55 (of_int 600)) H1 H2 H3 H4)).
Defined.

Lemma feed_cons (r : Z) (raws : list Z) (g : globals) :
  snd (feed (r :: raws) g) = snd (feed raws (update r g)).
Proof. cbn [feed]. now destruct (feed raws (update r g)). Qed.

Lemma pow_step (n : nat) :
  ((9 # 10) ^ Z.of_nat (S n) == (9 # 10) * (9 # 10) ^ Z.of_nat n)%Q.
Proof.
  rewrite Nat2Z.inj_succ. unfold Z.succ.
  rewrite Qpower_plus by discriminate.
  change ((9 # 10) ^ 1)%Q with (9 # 10)%Q. ring.
Qed.

Lemma pow_range (n : nat) : (0 <= (9 # 10) ^ Z.of_nat n <= 1)%Q.
Proof.
  induction n as [|n IH]; [split; discriminate|].
  rewrite pow_step. lra.
Qed.

Lemma converges_aux (r : Z) (n : nat) :
  1 <= r <= 1023 ->
  forall (g : globals) (e0 : Q),
  settled (last_val g) -> gt (last_val g) (of_int 0) = true ->
  (- e0 <= to_Q (last_val g) - inject_Z r <= e0)%Q ->
  let p := ((9 # 10) ^ Z.of_nat n)%Q in
  let h' := to_Q (last_val (snd (feed (repeat r n) g))) in
  (- (p * e0 + (5 # 2048) * (1 - p)) <= h' - inject_Z r
   <= p * e0 + (5 # 2048) * (1 - p))%Q.
Proof.
  intros Hr. induction n as [|n IH]; intros g e0 Hs Hp He; cbv zeta.
  - cbn [repeat feed snd]. change ((9 # 10) ^ Z.of_nat 0)%Q with 1%Q. lra.
  - cbn [repeat]. rewrite feed_cons.
    destruct (update_within_tolerance r g Hs Hp ltac:(lia)) as [Hs1 Herr].
    rewrite <- update_stores_result in Herr.
    apply Qabs_Qle_condition in Herr.
    assert (Hrq : (1 <= inject_Z r)%Q)
      by (change 1%Q with (inject_Z 1); rewrite <- Zle_Qle; lia).
    assert (G0 : good (last_val g))
      by (destruct Hs as (V & _ & P0 & _); now apply valid_nonneg_good).
    pose proof (good_nonneg _ G0) as N0.
    assert (G1 : good (last_val (update r g)))
      by (destruct Hs1 as (V & _ & P0 & _); now apply valid_nonneg_good).
    assert (Hp1 : gt (last_val (update r g)) (of_int 0) = true).
    { apply gt_zero_pos; [exact G1|apply Hs1|]. lra. }
    specialize (IH (update r g) ((9 # 10) * e0 + (1 # 4096))%Q Hs1 Hp1
                   ltac:(lra)).
    cbv zeta in IH. rewrite pow_step.
    pose proof (pow_range n) as Hpr.
    set (p := ((9 # 10) ^ Z.of_nat n)%Q) in *.
    set (h' := to_Q (last_val (snd (feed (repeat r n) (update r g))))) in *.
    lra.
Qed.

(** X3: fed the same code [r] of 1..1023 again and again, the filter closes
    nine tenths of its distance to [r] with each call: after [n] calls the
    value it holds is within [0.9^n * |h - r| + 5/2048] of [r], where [h] is
    the positive value it held at first. *)
Theorem constant_input_converges (r : Z) (n : nat) (g : globals) :
  1 <= r <= 1023 ->
  settled (last_val g) -> gt (last_val g) (of_int 0) = true ->
  (Qabs (to_Q (last_val (snd (feed (repeat r n) g))) - inject_Z r)
   <= (9 # 10) ^ Z.of_nat n * Qabs (to_Q (last_val g) - inject_Z r)
      + (5 # 2048))%Q.
Proof.
  intros Hr Hs Hp.
  pose proof (converges_aux r n Hr g (Qabs (to_Q (last_val g) - inject_Z r))
                Hs Hp) as H.
  cbv zeta in H.
  assert (He : (- Qabs (to_Q (last_val g) - inject_Z r)
                <= to_Q (last_val g) - inject_Z r
                <= Qabs (to_Q (last_val g) - inject_Z r))%Q).
  { apply Qabs_Qle_condition. apply Qle_refl. }
  specialize (H He). pose proof (pow_range n) as Hpr.
  apply Qabs_Qle_condition.
  set (p := ((9 # 10) ^ Z.of_nat n)%Q) in *.
  set (e0 := Qabs (to_Q (last_val g) - inject_Z r)) in *.
  lra.
Qed.

Lemma constant_input_converges_witness :
  (1 <= 900 <= 1023
   /\ settled (last_val (update 100 initial))
   /\ gt (last_val (update 100 initial)) (of_int 0) = true)
  /\ (Qabs (to_Q (last_val (snd (feed (repeat 900%Z 50) (update 100 initial))))
            - inject_Z 900)
      <= (9 # 10) ^ Z.of_nat 50
         * Qabs (to_Q (last_val (update 100 initial)) - inject_Z 900)
         + (5 # 2048))%Q.
Proof.
  assert (H1 : 1 <= 900 <= 1023) by lia.
  assert (H2 : settled (last_val (update 100 initial))).
  { split; [reflexivity|]. split; [reflexivity|]. split; [reflexivity|].
    apply Qle_bool_iff. vm_compute. reflexivity. }
  assert (H3 : gt (last_val (update 100 initial)) (of_int 0) = true)
    by reflexivity.
  split; [split; [exact H1|split; [exact H2|exact H3]]|].
  exact (constant_input_converges 900 50 (update 100 initial) H1 H2 H3).
Defined.

(** *** The clock *)

(** X4: the roll-over of [millis()] does not disturb the sampling.  When the
    pass comes [T - T0] milliseconds after the last sample, with less than
    [2^32] ms between the two, it samples and prints exactly when
    [T - T0 >= 50], whether or not the counter wrapped in between; and
    [previousMillis] becomes the reading of the clock in that case only. *)
Theorem rollover_does_not_disturb_sampling (T0 T : Z) (t : tick) (g : globals) :
  previousMillis g = T0 mod 2 ^ 32 -> millis t = T mod 2 ^ 32 ->
  0 <= T - T0 < 2 ^ 32 ->
  (snd (loop t g) <> [] <-> interval <= T - T0)
  /\ previousMillis (fst (loop t g))
     = (if interval <=? T - T0 then T else T0) mod 2 ^ 32.
Proof.
  intros Hg Ht HT.
  assert (E : elapsed (millis t) g = (interval <=? T - T0)).
  { unfold elapsed, ulong_sub, ULONG_WIDTH.
    rewrite Ht, Hg, <- Zminus_mod, Z.mod_small by lia. reflexivity. }
  rewrite loop_previousMillis, E.
  split; [|destruct (interval <=? T - T0); congruence].
  unfold loop. rewrite E.
  destruct (Z.leb_spec interval (T - T0)); cbn [snd].
  - split; [intros _; assumption|discriminate].
  - split; [congruence|lia].
Qed.

Lemma rollover_does_not_disturb_sampling_witness :
  (previousMillis (Globals (of_int 0) 4294967290 (of_int 512))
   = 4294967290 mod 2 ^ 32
   /\ millis (Tick 44 (fun _ => 512)) = 4294967340 mod 2 ^ 32
   /\ 0 <= 4294967340 - 4294967290 < 2 ^ 32)
  /\ (snd (loop (Tick 44 (fun _ => 512))
                (Globals (of_int 0) 4294967290 (of_int 512))) <> []
      <-> interval <= 4294967340 - 4294967290).
Proof.
  assert (H1 : previousMillis (Globals (of_int 0) 4294967290 (of_int 512))
               = 4294967290 mod 2 ^ 32) by reflexivity.
  assert (H2 : millis (Tick 44 (fun _ => 512)) = 4294967340 mod 2 ^ 32)
    by reflexivity.
  assert (H3 : 0 <= 4294967340 - 4294967290 < 2 ^ 32) by lia.
  split; [split; [exact H1|split; [exact H2|exact H3]]|].
  exact (proj1 (rollover_does_not_disturb_sampling 4294967290 4294967340
                  (Tick 44 (fun _ => 512))
                  (Globals (of_int 0) 4294967290 (of_int 512)) H1 H2 H3)).
Defined.

Lemma printed_lines (ts : list tick) :
  forall g, List.length (voltages (List.concat (run ts g)))
            = List.length (fired_at ts g).
Proof.
  induction ts as [|t ts IH]; intros g; cbn [run fired_at List.concat];
    [reflexivity|].
  rewrite voltages_app, length_app, IH.
  destruct (elapsed (millis t) g) eqn:E.
  - rewrite (proj2 (loop_elapsed t g E)). reflexivity.
  - rewrite (loop_not_elapsed t g E). reflexivity.
Qed.

Lemma fired_count (Ts : list Z) :
  forall (ts : list tick) (g : globals) (T0 Tend : Z),
  Forall2 (fun T t => millis t = T mod 2 ^ 32) Ts ts ->
  previousMillis g = T0 mod 2 ^ 32 ->
  StronglySorted Z.le (T0 :: Ts) ->
  Forall (fun T => T <= Tend) (T0 :: Ts) ->
  interval * Z.of_nat (List.length (fired_at ts g)) <= Tend - T0.
Proof.
  induction Ts as [|T Ts IH]; intros ts g T0 Tend Hts Hg Hs He.
  - inversion Hts; subst. cbn. apply Forall_cons_iff in He as [He _]. lia.
  - inversion Hts as [|? t ? ts' Ht Hts']; subst. cbn [fired_at].
    apply StronglySorted_inv in Hs as [Hs Hle].
    apply Forall_cons_iff in Hle as [HT Hle].
    apply Forall_cons_iff in He as [He0 He].
    destruct (elapsed (millis t) g) eqn:E.
    + pose proof (elapsed_on_wrapped_clock T0 T t g Ht Hg HT E) as Hgap.
      rewrite (proj2 (loop_elapsed t g E)). cbn [line List.length].
      assert (IH' := IH ts' (fst (loop t g)) T Tend Hts').
      rewrite (proj1 (loop_elapsed t g E)) in IH'.
      specialize (IH' Ht Hs He). lia.
    + rewrite (loop_not_elapsed t g E). cbn [fst snd].
      apply (IH ts' g T0 Tend Hts' Hg).
      * apply StronglySorted_inv in Hs as [Hs' _]. constructor; assumption.
      * apply Forall_cons_iff in He as [_ He]. constructor; assumption.
Qed.

(** X5: the sketch prints at most one line per 50 ms.  Over passes made at
    instants that never go back, from [T0], the instant of the last sample
    before them, up to [Tend], the number of lines printed times 50 is at
    most [Tend - T0], however often [millis()] wraps meanwhile. *)
Theorem at_most_one_line_per_interval (Ts : list Z) (ts : list tick)
    (g : globals) (T0 Tend : Z) :
  Forall2 (fun T t => millis t = T mod 2 ^ 32) Ts ts ->
  previousMillis g = T0 mod 2 ^ 32 ->
  StronglySorted Z.le (T0 :: Ts) ->
  Forall (fun T => T <= Tend) (T0 :: Ts) ->
  interval * Z.of_nat (List.length (voltages (List.concat (run ts g))))
  <= Tend - T0.
Proof.
  intros Hts Hg Hs He. rewrite printed_lines. now apply (fired_count Ts).
Qed.

Lemma at_most_one_line_per_interval_witness :
  (Forall2 (fun T t => millis t = T mod 2 ^ 32) [0; 20; 55; 60; 110] scenario
   /\ previousMillis initial = 0 mod 2 ^ 32
   /\ StronglySorted Z.le [0; 0; 20; 55; 60; 110]
   /\ Forall (fun T => T <= 110) [0; 0; 20; 55; 60; 110])
  /\ interval
     * Z.of_nat (List.length (voltages (List.concat (run scenario initial))))
     <= 110 - 0.
Proof.
  assert (H1 : Forall2 (fun T t => millis t = T mod 2 ^ 32)
                       [0; 20; 55; 60; 110] scenario)
    by (repeat constructor).
  assert (H2 : previousMillis initial = 0 mod 2 ^ 32) by reflexivity.
  assert (H3 : StronglySorted Z.le [0; 0; 20; 55; 60; 110])
    by (repeat constructor; lia).
  assert (H4 : Forall (fun T => T <= 110) [0; 0; 20; 55; 60; 110])
    by (repeat constructor; lia).
  split; [split; [exact H1|split; [exact H2|split; [exact H3|exact H4]]]|].
  exact (at_most_one_line_per_interval [0; 20; 55; 60; 110] scenario initial
           0 110 H1 H2 H3 H4).
Defined.

End SamplerBehaviour.

(** * The TEG driver over sequences of operations and passes *)

Module TEGBehaviour.
Import TEG_HeatingCooling TEGProofs.

Lemma exec_bind {A} (m : M A) (k : M unit) (b : board) :
  exec (m;; k) b = exec k (exec m b).
Proof. unfold exec, mbind, M_bind. now destruct (m b). Qed.

(** *** The operations of the class *)

(** Every operation is two writes to the direction pins and one to the
    enable pin, in this order. *)
Lemma perform_run (t : TEG) (o : operation) :
  exists a c p, forall b : board,
    perform t o b
    = (tt, {| pins := <[enable_pin t := Pwm p]>
                        (<[pin2 t := Digital c]>
                           (<[pin1 t := Digital a]> (pins b)));
              serial_rx := serial_rx b;
              calls := calls b ++ [digitalWrite_call (pin1 t) a;
                                   digitalWrite_call (pin2 t) c;
                                   analogWrite_call (enable_pin t) p] |}).
Proof.
  destruct o as [p|p|]; cbn [perform].
  - exists HIGH, LOW, p. intros b. apply forward_run.
  - exists LOW, HIGH, p. intros b. apply backward_run.
  - exists LOW, LOW, 0. intros b. apply stop_run.
Qed.

(** X6: [forward], [backward] and [stop] of an actuator leave every pin
    that is not one of its three pins as it was, and leave the bytes waiting
    on the serial port alone. *)
Theorem operation_touches_only_its_pins (t : TEG) (o : operation) (b : board)
    (p : Z) :
  p <> pin1 t -> p <> pin2 t -> p <> enable_pin t ->
  pins (exec (perform t o) b) !! p = pins b !! p
  /\ serial_rx (exec (perform t o) b) = serial_rx b.
Proof.
  intros H1 H2 He. unfold exec.
  destruct (perform_run t o) as (a & c & q & E). rewrite E.
  cbn [snd pins serial_rx]. split; [|reflexivity].
  now rewrite !lookup_insert_ne by done.
Qed.

Lemma operation_touches_only_its_pins_witness :
  (in3 <> pin1 TEG_L /\ in3 <> pin2 TEG_L /\ in3 <> enable_pin TEG_L)
  /\ pins (exec (perform TEG_L (Backward 255))
                (exec (forward TEG_R 135) power_up)) !! in3
     = pins (exec (forward TEG_R 135) power_up) !! in3.
Proof.
  assert (H1 : in3 <> pin1 TEG_L) by discriminate.
  assert (H2 : in3 <> pin2 TEG_L) by discriminate.
  assert (H3 : in3 <> enable_pin TEG_L) by discriminate.
  split; [split; [exact H1|split; [exact H2|exact H3]]|].
  exact (proj1 (operation_touches_only_its_pins TEG_L (Backward 255)
                  (exec (forward TEG_R 135) power_up) in3 H1 H2 H3)).
Defined.

(** Three writes made after three others to the same pins hide them. *)
Lemma writes_shadow (k1 k2 k3 : Z) (x1 x2 x3 y1 y2 y3 : pin_out)
    (ps : gmap Z pin_out) :
  <[k3 := y3]> (<[k2 := y2]> (<[k1 := y1]>
     (<[k3 := x3]> (<[k2 := x2]> (<[k1 := x1]> ps)))))
  = <[k3 := y3]> (<[k2 := y2]> (<[k1 := y1]> ps)).
Proof.
  apply map_eq. intros k.
  destruct (decide (k = k3)) as [->|N3]; [now rewrite !lookup_insert_eq|].
  rewrite !(lookup_insert_ne _ k3) by done.
  destruct (decide (k = k2)) as [->|N2]; [now rewrite !lookup_insert_eq|].
  rewrite !(lookup_insert_ne _ k2) by done.
  destruct (decide (k = k1)) as [->|N1]; [now rewrite !lookup_insert_eq|].
  rewrite !(lookup_insert_ne _ k1) by done.
  rewrite !(lookup_insert_ne _ k3) by done.
  rewrite !(lookup_insert_ne _ k2) by done.
  now rewrite !(lookup_insert_ne _ k1) by done.
Qed.

(** X7: the last operation wins.  After two operations on the same
    actuator every pin of the board holds what it holds after the second
    operation alone; in particular repeating an operation changes no pin. *)
Theorem last_operation_wins (t : TEG) (o1 o2 : operation) (b : board) :
  pins (exec (perform t o1;; perform t o2) b) = pins (exec (perform t o2) b).
Proof.
  rewrite exec_bind. unfold exec.
  destruct (perform_run t o1) as (a1 & c1 & p1 & E1).
  destruct (perform_run t o2) as (a2 & c2 & p2 & E2).
  rewrite E1, !E2. cbn [snd pins]. apply writes_shadow.
Qed.

(** X8: the two writes of a reversal are not simultaneous.  [forward]
    writes [pin1] HIGH first: on an actuator that is driven backward both
    direction pins are HIGH after this first write, until the second.
    [backward] writes [pin1] LOW first: on an actuator that is driven
    forward both pins are LOW in between. *)
Theorem reversal_transient (t : TEG) (pwm : Z) (b : board) :
  wired t ->
  (forward t pwm
   = (digitalWrite (pin1 t) HIGH;;
      digitalWrite (pin2 t) LOW;; analogWrite (enable_pin t) pwm)
   /\ (backward_active t b ->
       both_active t (exec (digitalWrite (pin1 t) HIGH) b)))
  /\ (backward t pwm
      = (digitalWrite (pin1 t) LOW;;
         digitalWrite (pin2 t) HIGH;; analogWrite (enable_pin t) pwm)
      /\ (forward_active t b ->
          stopped t (exec (digitalWrite (pin1 t) LOW) b))).
Proof.
  intros (H12 & _).
  split; (split; [reflexivity|]); intros [_ H2];
    unfold both_active, stopped, driven, exec in *; cbn [digitalWrite snd pins];
    (split; [apply lookup_insert_eq|]);
    rewrite lookup_insert_ne by done; exact H2.
Qed.

Lemma reversal_transient_witness :
  wired TEG_L
  /\ (backward_active TEG_L (exec (backward TEG_L 255) power_up) ->
      both_active TEG_L
        (exec (digitalWrite (pin1 TEG_L) HIGH)
              (exec (backward TEG_L 255) power_up))).
Proof.
  assert (Hw : wired TEG_L) by (vm_compute; repeat split; lia).
  split; [exact Hw|].
  exact (proj2 (proj1 (reversal_transient TEG_L 255
                         (exec (backward TEG_L 255) power_up) Hw))).
Defined.

(** *** Passes through the command loop *)

Lemma left_by_untouched (t : TEG) (o : operation) (b b' : board) :
  untouched t b b' -> left_by t o b -> left_by t o b'.
Proof.
  intros (H1 & H2 & He).
  destruct o; cbn [left_by];
    unfold forward_active, backward_active, stopped, driven;
    rewrite H1, H2, He; tauto.
Qed.

Lemma untouched_trans (t : TEG) (b1 b2 b3 : board) :
  untouched t b1 b2 -> untouched t b2 b3 -> untouched t b1 b3.
Proof.
  unfold untouched. intros (? & ? & ?) (? & ? & ?). repeat split; congruence.
Qed.

Lemma untouched_same_pins (t : TEG) (ps : gmap Z pin_out)
    (rx rx' : list ascii) (cs cs' : list call) :
  untouched t (Board ps rx cs) (Board ps rx' cs').
Proof. repeat split. Qed.

(** Computes a pass on a known byte. *)
Ltac known_pass :=
  rewrite loop_on_byte; cbv zeta;
  repeat match goal with
  | |- context [to_char ?x =? ?y] =>
      let v := eval vm_compute in (to_char x =? y) in
      change (to_char x =? y) with v
  end;
  cbv iota; unfold mbind, M_bind;
  repeat (first [rewrite forward_run | rewrite backward_run | rewrite stop_run]);
  unfold Serial_println, delay; cbn [calls snd pins serial_rx];
  rewrite <- ?app_assoc; cbn [app].

Ltac pins_known :=
  cbn [left_by]; unfold forward_active, backward_active, stopped, untouched, driven;
  cbn [pins TEG_L TEG_R TEG_new pin1 pin2 enable_pin ena enb in1 in2 in3 in4];
  repeat split;
  repeat (first [ rewrite lookup_insert_eq
                | rewrite lookup_insert_ne by discriminate ]);
  reflexivity.

(** One pass on the byte [c]: the byte leaves the buffer; the calls are
    those of the body, [out], and the closing [delay(100)]; [out] echoes [c]
    when it is a command, and each actuator is left as [c] asks or is not
    touched. *)
Lemma pass_on_byte (c : ascii) (ps : gmap Z pin_out) (rest : list ascii)
    (cs : list call) :
  exists ps' out,
    let b := Board ps (c :: rest) cs in
    let b' := Board ps' rest (cs ++ out ++ [delay_call 100]) in
    loop b = (tt, b')
    /\ printed out = (if is_command c then [String c EmptyString] else [])
    /\ waited out = 0
    /\ forallb loop_call out = true
    /\ match left_command c with
       | Some o => left_by TEG_L o b'
       | None => untouched TEG_L b b'
       end
    /\ match right_command c with
       | Some o => left_by TEG_R o b'
       | None => untouched TEG_R b b'
       end.
Proof.
  cbv zeta.
  destruct (ascii_dec c "a") as [->|Na].
  { known_pass. eexists _, [_; _; _; _]. split; [reflexivity|].
    repeat split; try reflexivity; pins_known. }
  destruct (ascii_dec c "s") as [->|Ns].
  { known_pass. eexists _, [_; _; _; _; _; _; _]. split; [reflexivity|].
    repeat split; try reflexivity; pins_known. }
  destruct (ascii_dec c "d") as [->|Nd].
  { known_pass. eexists _, [_; _; _; _]. split; [reflexivity|].
    repeat split; try reflexivity; pins_known. }
  destruct (ascii_dec c "w") as [->|Nw].
  { known_pass. eexists _, [_; _; _; _]. split; [reflexivity|].
    repeat split; try reflexivity; pins_known. }
  destruct (ascii_dec c "x") as [->|Nx].
  { known_pass. eexists _, [_; _; _; _]. split; [reflexivity|].
    repeat split; try reflexivity; pins_known. }
  exists ps, []. split.
  - rewrite loop_on_byte. cbv zeta.
    repeat match goal with
    | |- context [to_char (chr c) =? chr ?k] =>
        let H := fresh "H" in
        destruct (to_char (chr c) =? chr k) eqn:H;
        [ exfalso; apply (to_char_is c k) in H; [congruence|reflexivity] | ]
    end.
    reflexivity.
  - apply Ascii.eqb_neq in Na, Ns, Nd, Nw, Nx.
    unfold is_command, left_command, right_command. cbn [existsb].
    rewrite Na, Ns, Nd, Nw, Nx. cbn [orb].
    repeat split.
Qed.

Lemma printed_app (a b : list call) : printed (a ++ b) = printed a ++ printed b.
Proof.
  induction a as [|[] a IH]; cbn; try assumption; [reflexivity|now rewrite IH].
Qed.

Lemma waited_app (a b : list call) : waited (a ++ b) = waited a + waited b.
Proof. induction a as [|[] a IH]; cbn; lia. Qed.

(** What [n] passes do to a board. *)
Lemma passes_spec (n : nat) :
  forall b : board,
  let b' := exec (passes n) b in
  serial_rx b' = drop n (serial_rx b)
  /\ match last_command left_command (take n (serial_rx b)) with
     | Some o => left_by TEG_L o b'
     | None => untouched TEG_L b b'
     end
  /\ match last_command right_command (take n (serial_rx b)) with
     | Some o => left_by TEG_R o b'
     | None => untouched TEG_R b b'
     end
  /\ exists out,
       calls b' = calls b ++ out
       /\ printed out
          = map (fun c => String c EmptyString)
                (List.filter is_command (take n (serial_rx b)))
       /\ waited out = 100 * Z.of_nat n
       /\ forallb loop_call out = true.
Proof.
  induction n as [|n IH]; intros b; cbv zeta.
  - cbn [passes]. unfold exec, mret, M_ret. cbn [snd take drop].
    destruct b as [ps rx cs]. cbn [last_command].
    split; [reflexivity|]. split; [apply untouched_same_pins|].
    split; [apply untouched_same_pins|].
    exists []. rewrite app_nil_r. repeat split.
  - cbn [passes]. rewrite exec_bind.
    destruct b as [ps [|c rest] cs].
    + assert (Eb : exec loop (Board ps [] cs)
                   = Board ps [] (cs ++ [delay_call 100]))
        by (unfold exec; now rewrite loop_idle).
      rewrite Eb.
      destruct (IH (Board ps [] (cs ++ [delay_call 100])))
        as (Hrx & HL & HR & out & Hc & Hp & Hw & Ha).
      cbv zeta in *. cbn [serial_rx calls take drop] in *.
      rewrite take_nil in HL, HR, Hp. rewrite drop_nil in Hrx.
      split; [exact Hrx|].
      cbn [last_command] in *.
      split; [eapply untouched_trans; [apply untouched_same_pins|exact HL]|].
      split; [eapply untouched_trans; [apply untouched_same_pins|exact HR]|].
      exists (delay_call 100 :: out).
      split; [rewrite Hc, <- app_assoc; reflexivity|].
      cbn [printed waited forallb loop_call]. cbn [List.filter map] in Hp |- *.
      split; [exact Hp|]. split; [lia|]. rewrite Ha. reflexivity.
    + destruct (pass_on_byte c ps rest cs)
        as (ps' & o1 & E & Hp1 & Hw1 & Ha1 & HL1 & HR1).
      cbv zeta in E, HL1, HR1.
      set (b1 := Board ps' rest (cs ++ o1 ++ [delay_call 100])) in *.
      assert (Eb : exec loop (Board ps (c :: rest) cs) = b1)
        by (unfold exec; now rewrite E).
      rewrite Eb.
      destruct (IH b1) as (Hrx & HL & HR & out & Hc & Hp & Hw & Ha).
      cbv zeta in *. cbn [serial_rx calls take drop] in *.
      change (serial_rx b1) with rest in *.
      split; [exact Hrx|].
      split; [|split].
      * cbn [last_command].
        destruct (last_command left_command (take n rest)) as [o|]; [exact HL|].
        destruct (left_command c) as [o|].
        -- eapply left_by_untouched; [exact HL|exact HL1].
        -- eapply untouched_trans; [exact HL1|exact HL].
      * cbn [last_command].
        destruct (last_command right_command (take n rest)) as [o|]; [exact HR|].
        destruct (right_command c) as [o|].
        -- eapply left_by_untouched; [exact HR|exact HR1].
        -- eapply untouched_trans; [exact HR1|exact HR].
      * exists (o1 ++ [delay_call 100] ++ out).
        split; [rewrite Hc; unfold b1; cbn [calls]; now rewrite <- !app_assoc|].
        rewrite !printed_app, !waited_app, !forallb_app, Hp1, Hw1, Ha1, Hp, Hw, Ha.
        cbn [printed waited forallb loop_call app List.filter].
        repeat split; [|lia].
        destruct (is_command c); reflexivity.
Qed.

(** X9: each pass takes at most one byte and ends with [delay(100)]: after
    [n] passes the first [n] bytes that were waiting are gone (all of them
    when there were fewer), the others wait in their order, and the sketch
    has spent [100 n] ms in [delay]. *)
Theorem passes_drain_buffer (n : nat) (b : board) :
  serial_rx (exec (passes n) b) = drop n (serial_rx b)
  /\ waited (calls (exec (passes n) b)) = waited (calls b) + 100 * Z.of_nat n.
Proof.
  destruct (passes_spec n b) as (Hrx & _ & _ & out & Hc & _ & Hw & _).
  split; [exact Hrx|]. rewrite Hc, waited_app, Hw. reflexivity.
Qed.

(** X10: what [n] passes print is the echo of the commands among the first
    [n] bytes that were waiting, one line of one character each, in the
    order of the bytes; the other bytes print nothing. *)
Theorem echo_is_command_subsequence (n : nat) (b : board) :
  printed (calls (exec (passes n) b))
  = printed (calls b)
    ++ map (fun c => String c EmptyString)
           (List.filter is_command (take n (serial_rx b))).
Proof.
  destruct (passes_spec n b) as (_ & _ & _ & out & Hc & Hp & _ & _).
  now rewrite Hc, printed_app, Hp.
Qed.

(** X11: after [n] passes each actuator is in the state asked by the last
    command for it among the first [n] bytes that were waiting: for the left
    one ['a'] forward 255, ['d'] backward 255, ['s'] stop; for the right one
    ['w'] forward 135, ['x'] backward 135, ['s'] stop.  An actuator that no
    byte addressed has its three pins as they were. *)
Theorem last_command_decides_state (n : nat) (b : board) :
  let b' := exec (passes n) b in
  match last_command left_command (take n (serial_rx b)) with
  | Some o => left_by TEG_L o b'
  | None => untouched TEG_L b b'
  end
  /\ match last_command right_command (take n (serial_rx b)) with
     | Some o => left_by TEG_R o b'
     | None => untouched TEG_R b b'
     end.
Proof.
  destruct (passes_spec n b) as (_ & HL & HR & _). split; [exact HL|exact HR].
Qed.

(** X12: whatever bytes are waiting, the passes write levels to the pins 3
    to 6 only and duty cycles to the pins 2 and 7 only, 255 or 0 on pin 2
    and 135 or 0 on pin 7; they print nothing but the echo of a command and
    wait nowhere but in [delay(100)]. *)
Theorem loop_calls_stay_on_teg_pins (n : nat) (b : board) :
  forallb loop_call (new_calls (passes n) b) = true.
Proof.
  destruct (passes_spec n b) as (_ & _ & _ & out & Hc & _ & _ & Ha).
  now rewrite (new_calls_app _ _ _ Hc).
Qed.

(** *** [setup()] *)

Lemma wait_ready (arrivals : list (list ascii)) (b : board) :
  serial_rx b <> [] -> wait_for_byte arrivals b = Some (b, arrivals).
Proof.
  intros Hne. destruct arrivals; cbn [wait_for_byte];
    unfold Serial_available; cbn [fst];
    destruct (serial_rx b); try congruence; reflexivity.
Qed.

Lemma wait_empty (arrivals : list (list ascii)) (b : board) :
  serial_rx b = [] ->
  wait_for_byte arrivals b
  = match arrivals with
    | [] => None
    | bytes :: later => wait_for_byte later (receive bytes b)
    end.
Proof.
  intros E. destruct arrivals; cbn [wait_for_byte];
    unfold Serial_available; cbn [fst]; rewrite E; reflexivity.
Qed.

(** From an empty buffer the wait ends at the first arrival that is not
    empty, and only there. *)
Lemma wait_spec (arrivals : list (list ascii)) :
  forall b : board, serial_rx b = [] ->
  match wait_for_byte arrivals b with
  | None => List.concat arrivals = []
  | Some (b', later) =>
      exists before,
        arrivals = before ++ serial_rx b' :: later
        /\ List.concat before = [] /\ serial_rx b' <> []
        /\ pins b' = pins b /\ calls b' = calls b
  end.
Proof.
  induction arrivals as [|bytes later IH]; intros b E; rewrite (wait_empty _ b E).
  - reflexivity.
  - destruct bytes as [|c0 bytes'].
    + assert (E' : serial_rx (receive [] b) = [])
        by (cbn [receive serial_rx]; rewrite E; reflexivity).
      specialize (IH (receive [] b) E').
      destruct (wait_for_byte later (receive [] b)) as [[b' later']|];
        [|exact IH].
      destruct IH as (before & -> & Hb & Hne & Hp & Hc).
      exists ([] :: before). cbn [receive pins calls] in *.
      repeat split; assumption.
    + rewrite wait_ready
        by (cbn [receive serial_rx]; rewrite E; discriminate).
      exists []. cbn [receive serial_rx pins calls]. rewrite E.
      repeat split. discriminate.
Qed.

(** X13: [setup()] returns exactly when a byte arrives on the serial line: it
    never returns when the line stays silent. *)
Theorem setup_blocks_until_a_byte_arrives (arrivals : list (list ascii)) :
  setup arrivals = None <-> List.concat arrivals = [].
Proof.
  unfold setup. pose proof (wait_spec arrivals power_up eq_refl) as H.
  destruct (wait_for_byte arrivals power_up) as [[b' later]|].
  - destruct H as (before & -> & Hb & Hne & _).
    split; [discriminate|]. rewrite concat_app, Hb. cbn [app List.concat].
    intros H. apply app_eq_nil in H as [H _]. contradiction.
  - tauto.
Qed.

(** X14: when [setup()] returns, the six pins 2 to 7 are outputs and the
    port runs at 9600 baud; no pin has been written and the only call logged
    is the banner.  The wait ended at the first arrival that brought bytes
    and took none of them: they wait in the buffer, and the first pass
    through [loop()] takes the first of them as its command. *)
Theorem setup_leaves_first_byte_for_loop (arrivals : list (list ascii))
    (c : config) (b : board) (later : list (list ascii)) :
  setup arrivals = Some (c, b, later) ->
  (forall p, 2 <= p <= 7 -> modes c !! p = Some OUTPUT)
  /\ baud c = Some 9600
  /\ pins b = ∅
  /\ calls b = [Serial_println_call "Begin command...."]
  /\ (exists before, arrivals = before ++ serial_rx b :: later
                     /\ List.concat before = [])
  /\ exists first rest,
       serial_rx b = first :: rest
       /\ serial_rx (exec loop b) = rest.
Proof.
  unfold setup. pose proof (wait_spec arrivals power_up eq_refl) as H.
  destruct (wait_for_byte arrivals power_up) as [[b' later']|]; [|discriminate].
  destruct H as (before & Harr & Hb & Hne & Hp & Hc).
  intros E. inversion E; subst c b later'. clear E.
  split.
  { intros p Hp2. cbn [Serial_begin pinMode modes].
    assert (Hcase : p = 2 \/ p = 3 \/ p = 4 \/ p = 5 \/ p = 6 \/ p = 7) by lia.
    destruct Hcase as [->|[->|[->|[->|[->| ->]]]]]; reflexivity. }
  split; [reflexivity|].
  unfold exec, Serial_println. cbn [snd pins calls serial_rx].
  split; [exact Hp|]. split; [rewrite Hc; reflexivity|].
  split; [exists before; split; assumption|].
  destruct (serial_rx b') as [|first rest] eqn:Erx; [congruence|].
  exists first, rest. split; [reflexivity|].
  destruct b' as [ps' rx' cs']. cbn [serial_rx pins calls] in *. subst rx'.
  destruct (pass_on_byte first ps' rest
              (cs' ++ [Serial_println_call "Begin command...."]))
    as (ps'' & out & El & _).
  cbv zeta in El. rewrite El. reflexivity.
Qed.

Lemma setup_leaves_first_byte_for_loop_witness :
  exists c b,
    setup [[]; []; ["a"; "w"]%char; ["s"]%char] = Some (c, b, [["s"%char]])
    /\ serial_rx b = ["a"; "w"]%char
    /\ exists first rest,
         serial_rx b = first :: rest /\ serial_rx (exec loop b) = rest.
Proof.
  eexists _, _.
  assert (H : setup [[]; []; ["a"; "w"]%char; ["s"]%char]
              = Some (_, _, [["s"%char]])) by reflexivity.
  split; [exact H|]. split; [reflexivity|].
  exact (proj2 (proj2 (proj2 (proj2 (proj2
           (setup_leaves_first_byte_for_loop _ _ _ _ H)))))).
Defined.

End TEGBehaviour.
